(** * diskman: the format-progress monitor of [disk.py]

    A shallow embedding of the progress-tracking part of [disk.py]:
    the regular expressions it searches the [sg_requests] output with,
    the per-device poll state and [_poll], the visible-width truncation
    [_vis_trunc], the duration formatter [fmt_duration] and the key
    handling of [_progress_ui].

    Conventions of the embedding.
    - A Python [str] is a list of characters.  A character is a code point
      below 256 ([ascii]); the character classes [\d], [\s], [\w] and the
      case folding of [re.I] are those of Python on that range.
    - A Python [float] is an exact rational ([Q]); rounding, overflow and
      NaN are outside the model.  Float division by zero raises
      [ZeroDivisionError] as in Python.
    - [time.monotonic()] and [subprocess.run] are inputs of the model: the
      clock reading [now] and an oracle [run] giving the result of each
      command line.  [_poll] returns the commands it invoked and the log
      lines it wrote next to the new device state. *)

From Stdlib Require Import Ascii String DecimalString Decimal.
From Stdlib Require DecimalPos DecimalN.
From Stdlib Require Import ZArith QArith Lia Lqa Bool Arith List.
Import ListNotations.

Local Open Scope Z_scope.

(* ================================================================= *)
(** ** Strings *)

Definition str := list ascii.

Definition s2l (s : string) : str := list_ascii_of_string s.

Arguments s2l s%_string : simpl never.

Definition code (c : ascii) : N := N_of_ascii c.

Definition in_range (lo hi : N) (c : ascii) : bool :=
  (N.leb lo (code c) && N.leb (code c) hi)%bool.

Definition ESC : ascii := ascii_of_N 27.
Definition LF : ascii := ascii_of_N 10.

Definition str_eqb (a b : str) : bool :=
  if list_eq_dec ascii_dec a b then true else false.

(** [sep.join(parts)] *)
Fixpoint join (sep : str) (parts : list str) : str :=
  match parts with
  | [] => []
  | [p] => p
  | p :: rest => p ++ sep ++ join sep rest
  end.

(** [c in s] for a single character [c]. *)
Definition contains_char (c : ascii) (s : str) : bool :=
  existsb (Ascii.eqb c) s.

(* ================================================================= *)
(** ** Character classes of Python's [re] on code points below 256 *)

Module CharClass.

(** [[0-9]] and, on this range, [\d]. *)
Definition digit (c : ascii) : bool := in_range 48 57 c.

Definition upper (c : ascii) : bool := in_range 65 90 c.
Definition lower (c : ascii) : bool := in_range 97 122 c.

(** [[A-Za-z]] *)
Definition letter (c : ascii) : bool := (upper c || lower c)%bool.

(** [\s]: the characters for which [str.isspace] holds. *)
Definition space (c : ascii) : bool :=
  (in_range 9 13 c || in_range 28 32 c
   || N.eqb (code c) 133 || N.eqb (code c) 160)%bool.

(** [\w]: [str.isalnum] or underscore. *)
Definition word (c : ascii) : bool :=
  (digit c || letter c || N.eqb (code c) 95
   || N.eqb (code c) 170 || N.eqb (code c) 178 || N.eqb (code c) 179
   || N.eqb (code c) 181 || N.eqb (code c) 185 || N.eqb (code c) 186
   || in_range 188 190 c || in_range 192 214 c
   || in_range 216 246 c || in_range 248 255 c)%bool.

(** [[0-9;]] *)
Definition param (c : ascii) : bool := (digit c || N.eqb (code c) 59)%bool.

(** [str.lower] on one character, as [re.I] folds the subject: only
    [A-Z] fold onto the ASCII letters a pattern of this program has. *)
Definition to_lower (c : ascii) : ascii :=
  if upper c then ascii_of_N (code c + 32) else c.

Definition only (a : ascii) (c : ascii) : bool := Ascii.eqb a c.

(** A pattern character under [re.I]. *)
Definition only_ci (a : ascii) (c : ascii) : bool :=
  Ascii.eqb (to_lower a) (to_lower c).

End CharClass.

(* ================================================================= *)
(** ** A backtracking matcher for the patterns of [disk.py]

    Python's [re] is a backtracking matcher: alternatives are tried left
    to right, repetitions are greedy and give characters back one at a
    time, [search] takes the leftmost position at which a match exists. *)

Module Re.

Inductive regex : Type :=
| Eps
| Cls (p : ascii -> bool)                         (* one character of a class *)
| Cat (r1 r2 : regex)                             (* r1 r2 *)
| Alt (r1 r2 : regex)                             (* r1|r2 *)
| Rep (lo : nat) (hi : option nat) (p : ascii -> bool)  (* p{lo,hi}, greedy *)
| Opt (r : regex)                                 (* (?:r)?, greedy *)
| Grp (i : nat) (r : regex)                       (* capturing group i *)
| Bnd.                                            (* \b *)

(** Captured groups, most recent first. *)
Definition caps := list (nat * str).

(** The continuation receives the character before the current position
    (for [\b]), the rest of the subject and the groups captured so far. *)
Definition kont (A : Type) := option ascii -> str -> caps -> option A.

Definition orelse {A} (x y : option A) : option A :=
  match x with Some _ => x | None => y end.

Definition may_take (hi : option nat) : bool :=
  match hi with Some O => false | _ => true end.

Definition dec_hi (hi : option nat) : option nat :=
  match hi with Some n => Some (Nat.pred n) | None => None end.

Fixpoint rep {A} (p : ascii -> bool) (lo : nat) (hi : option nat)
    (prev : option ascii) (s : str) (k : option ascii -> str -> option A)
    : option A :=
  let stop := if Nat.eqb lo 0 then k prev s else None in
  match s with
  | c :: s' =>
      if (p c && may_take hi)%bool
      then orelse (rep p (Nat.pred lo) (dec_hi hi) (Some c) s' k) stop
      else stop
  | [] => stop
  end.

Definition is_word (c : option ascii) : bool :=
  match c with Some c => CharClass.word c | None => false end.

Fixpoint rmatch {A} (r : regex) (prev : option ascii) (s : str) (cs : caps)
    (k : kont A) : option A :=
  match r with
  | Eps => k prev s cs
  | Cls p =>
      match s with
      | c :: s' => if p c then k (Some c) s' cs else None
      | [] => None
      end
  | Cat r1 r2 =>
      rmatch r1 prev s cs (fun prev' s' cs' => rmatch r2 prev' s' cs' k)
  | Alt r1 r2 => orelse (rmatch r1 prev s cs k) (rmatch r2 prev s cs k)
  | Rep lo hi p => rep p lo hi prev s (fun prev' s' => k prev' s' cs)
  | Opt r1 => orelse (rmatch r1 prev s cs k) (k prev s cs)
  | Grp i r1 =>
      rmatch r1 prev s cs
        (fun prev' s' cs' =>
           k prev' s' ((i, firstn (length s - length s') s) :: cs'))
  | Bnd =>
      if xorb (is_word prev) (is_word (hd_error s)) then k prev s cs
      else None
  end.

(** A match object: its groups, group 0 being the whole match. *)
Definition mobj := caps.

(** [pattern.match(s, i)], given the character before position [i] and
    the subject from [i] on. *)
Definition match_at (r : regex) (prev : option ascii) (s : str) : option mobj :=
  rmatch (Grp 0 r) prev s [] (fun _ _ cs => Some cs).

Fixpoint search_from (r : regex) (prev : option ascii) (s : str) : option mobj :=
  match match_at r prev s with
  | Some m => Some m
  | None =>
      match s with
      | c :: s' => search_from r (Some c) s'
      | [] => None
      end
  end.

(** [re.search(pattern, s)] *)
Definition search (r : regex) (s : str) : option mobj := search_from r None s.

(** [m.group(i)] of a group that took part in the match. *)
Fixpoint group (m : mobj) (i : nat) : str :=
  match m with
  | [] => []
  | (j, g) :: m' => if Nat.eqb i j then g else group m' i
  end.

Definition found (m : option mobj) : bool :=
  match m with Some _ => true | None => false end.

(** A literal character, a literal under [re.I], and literal words. *)
Definition chr (a : ascii) : regex := Cls (CharClass.only a).
Definition chr_ci (a : ascii) : regex := Cls (CharClass.only_ci a).

Fixpoint lit (w : str) : regex :=
  match w with
  | [] => Eps
  | [a] => chr a
  | a :: w' => Cat (chr a) (lit w')
  end.

Fixpoint lit_ci (w : str) : regex :=
  match w with
  | [] => Eps
  | [a] => chr_ci a
  | a :: w' => Cat (chr_ci a) (lit_ci w')
  end.

(** The character before the position reached after [taken]. *)
Definition last_prev (prev : option ascii) (taken : str) : option ascii :=
  fold_left (fun _ c => Some c) taken prev.

Definition within (n : nat) (hi : option nat) : Prop :=
  match hi with Some h => (n <= h)%nat | None => True end.

(** What a match of [r] is, without the order in which the matcher
    tries the possibilities. *)
Inductive matches : regex -> option ascii -> str -> caps ->
                    option ascii -> str -> caps -> Prop :=
| M_eps prev s cs : matches Eps prev s cs prev s cs
| M_cls p prev c s cs :
    p c = true -> matches (Cls p) prev (c :: s) cs (Some c) s cs
| M_cat r1 r2 prev s cs prev1 s1 cs1 prev2 s2 cs2 :
    matches r1 prev s cs prev1 s1 cs1 ->
    matches r2 prev1 s1 cs1 prev2 s2 cs2 ->
    matches (Cat r1 r2) prev s cs prev2 s2 cs2
| M_alt_l r1 r2 prev s cs prev' s' cs' :
    matches r1 prev s cs prev' s' cs' ->
    matches (Alt r1 r2) prev s cs prev' s' cs'
| M_alt_r r1 r2 prev s cs prev' s' cs' :
    matches r2 prev s cs prev' s' cs' ->
    matches (Alt r1 r2) prev s cs prev' s' cs'
| M_rep lo hi p prev taken s' cs :
    forallb p taken = true ->
    (lo <= length taken)%nat -> within (length taken) hi ->
    matches (Rep lo hi p) prev (taken ++ s') cs (last_prev prev taken) s' cs
| M_opt_some r prev s cs prev' s' cs' :
    matches r prev s cs prev' s' cs' ->
    matches (Opt r) prev s cs prev' s' cs'
| M_opt_none r prev s cs : matches (Opt r) prev s cs prev s cs
| M_grp i r prev s cs prev' s' cs' :
    matches r prev s cs prev' s' cs' ->
    matches (Grp i r) prev s cs prev' s'
            ((i, firstn (length s - length s') s) :: cs')
| M_bnd prev s cs :
    xorb (is_word prev) (is_word (hd_error s)) = true ->
    matches Bnd prev s cs prev s cs.

End Re.

(* ================================================================= *)
(** ** The patterns of [disk.py] *)

Import Re.

(** [r"progress indication|format in progress"] with [re.I] *)
Definition progress_re : regex :=
  Alt (lit_ci (s2l "progress indication")) (lit_ci (s2l "format in progress")).

(** [r"(\d+(?:\.\d+)?)\s*%"] *)
Definition pct_re : regex :=
  Cat (Grp 1 (Cat (Rep 1 None CharClass.digit)
                  (Opt (Cat (chr ".") (Rep 1 None CharClass.digit)))))
      (Cat (Rep 0 None CharClass.space) (chr "%")).

(** [r"\b(\d{1,5})\s*/\s*(65535|65536)\b"] *)
Definition ratio_re : regex :=
  Cat Bnd
  (Cat (Grp 1 (Rep 1 (Some 5%nat) CharClass.digit))
  (Cat (Rep 0 None CharClass.space)
  (Cat (chr "/")
  (Cat (Rep 0 None CharClass.space)
  (Cat (Grp 2 (Alt (lit (s2l "65535")) (lit (s2l "65536"))))
       Bnd))))).

(** [r"error|fail"] with [re.I] *)
Definition error_re : regex := Alt (lit_ci (s2l "error")) (lit_ci (s2l "fail")).

(** [_ANSI_ESC = re.compile(r'\033\[[0-9;]*[A-Za-z]')] *)
Definition _ANSI_ESC : regex :=
  Cat (chr ESC) (Cat (chr "[") (Cat (Rep 0 None CharClass.param)
                                    (Cls CharClass.letter))).

(* ================================================================= *)
(** ** Floats and their formatting *)

Local Open Scope Q_scope.

Definition Qlt_bool (x y : Q) : bool := negb (Qle_bool y x).

(** [min(a, b)] and [max(a, b)] of Python: the first argument unless the
    second is strictly smaller (larger). *)
Definition py_min (a b : Q) : Q := if Qlt_bool b a then b else a.
Definition py_max (a b : Q) : Q := if Qlt_bool a b then b else a.

Inductive exn : Type :=
| TimeoutExpired
| FileNotFoundError
| PermissionError
| UnicodeDecodeError
| ZeroDivisionError.

(** A computation that returns or raises. *)
Inductive res (A : Type) : Type :=
| Ok (a : A)
| Err (e : exn).
Arguments Ok {A} a.
Arguments Err {A} e.

Definition bind {A B} (x : res A) (f : A -> res B) : res B :=
  match x with Ok a => f a | Err e => Err e end.

Notation "x <- c ;; k" := (bind c (fun x => k))
  (at level 61, c at next level, right associativity).

(** [a / b] on floats. *)
Definition fdiv (a b : Q) : res Q :=
  if Qeq_bool b 0 then Err ZeroDivisionError else Ok (a / b).

Definition digit_val (c : ascii) : Z := (Z.of_N (code c) - 48)%Z.

Definition int_of_digits (ds : str) : Z :=
  fold_left (fun acc c => (10 * acc + digit_val c)%Z) ds 0%Z.

(** The digits before the first ['.'] and the characters after it. *)
Fixpoint split_dot (s : str) : str * option str :=
  match s with
  | [] => ([], None)
  | c :: s' =>
      if Ascii.eqb c "." then ([], Some s')
      else let (a, b) := split_dot s' in (c :: a, b)
  end.

(** [float(s)] for [s] of the form [digits] or [digits.digits], the only
    strings the patterns capture. *)
Definition float (s : str) : Q :=
  match split_dot s with
  | (ip, None) => inject_Z (int_of_digits ip)
  | (ip, Some fp) =>
      inject_Z (int_of_digits ip)
      + (int_of_digits fp # Z.to_pos (10 ^ Z.of_nat (length fp)))
  end.

(** [int(x)]: truncation towards zero. *)
Definition int_of_float (x : Q) : Z := Z.quot (Qnum x) (Zpos (Qden x)).

(** [str(n)] and [f"{n:02d}"] for [n >= 0]. *)
Definition str_of_int (n : Z) : str :=
  s2l (NilZero.string_of_uint (N.to_uint (Z.to_N n))).

Definition pad2 (n : Z) : str :=
  let d := str_of_int n in
  if (length d <? 2)%nat then "0"%char :: d else d.

Definition fmt_duration (secs : Q) : str :=
  let secs := Z.max 0 (int_of_float secs) in
  let h := (secs / 3600)%Z in
  let rem := (secs mod 3600)%Z in
  let m := (rem / 60)%Z in
  let s := (rem mod 60)%Z in
  if negb (Z.eqb h 0) then
    str_of_int h ++ s2l "h " ++ pad2 m ++ s2l "m " ++ pad2 s ++ s2l "s"
  else if negb (Z.eqb m 0) then
    str_of_int m ++ s2l "m " ++ pad2 s ++ s2l "s"
  else
    str_of_int s ++ s2l "s".

(* ================================================================= *)
(** ** The device poll state *)

Inductive status_t : Type := waiting | formatting | done | failed.

(** [Device.slot]: a slot number, or ["?"] for an unknown port. *)
Inductive slot_t : Type := SlotNo (n : Z) | SlotUnknown.

Definition str_of_slot (s : slot_t) : str :=
  match s with
  | SlotNo n => str_of_int n
  | SlotUnknown => s2l "?"
  end.

Record DevState : Type := {
  path : str;
  sg_path : str;
  slot : slot_t;
  model : str;
  serial : str;
  status : status_t;
  ever_started : bool;
  progress : Q;
  eta : str;
  start : Q;
  prev_pct : Q;
  prev_time : Q
}.

(** The sentinel of an unknown ETA. *)
Definition ETA_UNKNOWN : str := s2l "--".

Definition set_started (st : DevState) : DevState :=
  {| path := path st; sg_path := sg_path st; slot := slot st;
     model := model st; serial := serial st;
     status := formatting; ever_started := true;
     progress := progress st; eta := eta st; start := start st;
     prev_pct := prev_pct st; prev_time := prev_time st |}.

Definition set_sample (st : DevState) (eta' : str) (pct now : Q) : DevState :=
  {| path := path st; sg_path := sg_path st; slot := slot st;
     model := model st; serial := serial st;
     status := status st; ever_started := ever_started st;
     progress := py_max 0 (py_min 100 pct); eta := eta'; start := start st;
     prev_pct := pct; prev_time := now |}.

Definition set_final (st : DevState) (s : status_t) (p : Q) (eta' : str)
    : DevState :=
  {| path := path st; sg_path := sg_path st; slot := slot st;
     model := model st; serial := serial st;
     status := s; ever_started := ever_started st;
     progress := p; eta := eta'; start := start st;
     prev_pct := prev_pct st; prev_time := prev_time st |}.

(** [DevState.__init__], the clock read twice. *)
Definition DevState_init (path' sg : str) (slot' : slot_t) (model' serial' : str)
    (t0 t1 : Q) : DevState :=
  {| path := path'; sg_path := sg; slot := slot'; model := model';
     serial := serial'; status := waiting; ever_started := false;
     progress := 0; eta := ETA_UNKNOWN; start := t0;
     prev_pct := 0; prev_time := t1 |}.

Definition terminal (s : status_t) : bool :=
  match s with done | failed => true | _ => false end.

(* ================================================================= *)
(** ** The poller *)

(** What [subprocess.run(cmd, capture_output=True, text=True, timeout=10)]
    does: it completes with the captured text of both streams, or raises. *)
Inductive run_result : Type :=
| Completed (stdout stderr : str)
| Raises (e : exn).

Definition cmdline := list str.

(** The environment of one call of [_poll]. *)
Record world : Type := {
  run : cmdline -> Z -> run_result;    (* command line, timeout *)
  now : Q                              (* [time.monotonic()] *)
}.

(** How a call ends: normally or by an exception, with the device state it
    leaves, the commands it invoked and the lines it logged. *)
Record outcome : Type := {
  raised : option exn;
  after : DevState;
  invoked : list cmdline;
  logged : list str
}.

Definition poll_cmds (poll_dev : str) : list cmdline :=
  [ [s2l "sg_requests"; poll_dev];
    [s2l "sg_requests"; s2l "--progress"; poll_dev] ].

(** The loop over the two commands: [outputs] collects the text of every
    invocation that completed, a [TimeoutExpired] is skipped, any other
    exception leaves the loop. *)
Fixpoint invoke_all (w : world) (cmds : list cmdline) (outputs : list str)
    (inv : list cmdline) : res (list str) * list cmdline :=
  match cmds with
  | [] => (Ok outputs, inv)
  | cmd :: rest =>
      match run w cmd 10%Z with
      | Completed out err => invoke_all w rest (outputs ++ [out ++ err]) (inv ++ [cmd])
      | Raises TimeoutExpired => invoke_all w rest outputs (inv ++ [cmd])
      | Raises e => (Err e, inv ++ [cmd])
      end
  end.

(** The percentage read from the text: a literal percent first, a ratio
    over 65535 or 65536 second. *)
Definition extract_pct (output : str) : res (option Q) :=
  match search pct_re output with
  | Some m_pct => Ok (Some (float (group m_pct 1)))
  | None =>
      match search ratio_re output with
      | Some m_ratio =>
          q <- fdiv (float (group m_ratio 1)) (float (group m_ratio 2)) ;;
          Ok (Some (q * 100))
      | None => Ok None
      end
  end.

(** [eta] of a new sample. *)
Definition eta_of (pct dt dp : Q) : res str :=
  if (Qlt_bool 0 dt && Qlt_bool 0 dp)%bool then
    rate <- fdiv dp dt ;;
    e <- fdiv (100 - pct) rate ;;
    Ok (fmt_duration e)
  else Ok ETA_UNKNOWN.

Definition log_line (tag : string) (st : DevState) : str :=
  s2l tag ++ s2l " slot=" ++ str_of_slot (slot st) ++ s2l " dev=" ++ path st
  ++ s2l " model=" ++ model st ++ s2l " serial=" ++ serial st.

(** The body of [_poll] from [output = "\n".join(outputs)] on. *)
Definition poll_output (w : world) (output : str) (state : DevState)
    (inv : list cmdline) : outcome :=
  if found (search progress_re output) then
    match extract_pct output with
    | Err e => {| raised := Some e; after := state; invoked := inv; logged := [] |}
    | Ok pct =>
        let state := set_started state in
        match pct with
        | None => {| raised := None; after := state; invoked := inv; logged := [] |}
        | Some pct =>
            let dt := now w - prev_time state in
            let dp := pct - prev_pct state in
            match eta_of pct dt dp with
            | Err e => {| raised := Some e; after := state; invoked := inv; logged := [] |}
            | Ok eta' =>
                {| raised := None; after := set_sample state eta' pct (now w);
                   invoked := inv; logged := [] |}
            end
        end
    end
  else if found (search error_re output) then
    {| raised := None; after := set_final state failed 0 ETA_UNKNOWN;
       invoked := inv; logged := [log_line "FORMAT_FAILED" state] |}
  else if ever_started state then
    {| raised := None; after := set_final state done 100 (s2l "done");
       invoked := inv; logged := [log_line "FORMAT_COMPLETE" state] |}
  else
    {| raised := None; after := state; invoked := inv; logged := [] |}.

Definition _poll (w : world) (state : DevState) : outcome :=
  if terminal (status state) then
    {| raised := None; after := state; invoked := []; logged := [] |}
  else
    match invoke_all w (poll_cmds (sg_path state)) [] [] with
    | (Err e, inv) =>
        {| raised := Some e; after := state; invoked := inv; logged := [] |}
    | (Ok outputs, inv) =>
        match outputs with
        | [] => {| raised := None; after := state; invoked := inv; logged := [] |}
        | _ => poll_output w (join [LF] outputs) state inv
        end
    end.

(* ================================================================= *)
(** ** The text width tracker *)

(** [RST = "\033[0m"] *)
Definition RST : str := ESC :: s2l "[0m".

(** The [while i < len(s)] loop of [_vis_trunc] on the rest [s[i:]] of the
    string.  Every iteration moves [i] forward; [fuel] bounds the number
    of iterations and [None] is the loop cut short by it. *)
Fixpoint vis_loop (fuel : nat) (s : str) (width visible : Z) (result : str)
    : option str :=
  match fuel with
  | O => None
  | S fuel' =>
      match s with
      | [] => Some result
      | c :: s' =>
          match match_at _ANSI_ESC None s with
          | Some m =>
              vis_loop fuel' (skipn (length (group m 0)) s) width visible
                       (result ++ group m 0)
          | None =>
              if (visible >=? width)%Z then Some result
              else vis_loop fuel' s' width (visible + 1)%Z (result ++ [c])
          end
      end
  end.

Definition _vis_trunc (s : str) (width : Z) : option str :=
  match vis_loop (S (length s)) s width 0%Z [] with
  | Some result =>
      Some (if contains_char ESC result then result ++ RST else result)
  | None => None
  end.

(** The reading of a string as control sequences and single characters,
    left to right, a control sequence being a match of [_ANSI_ESC]. *)
Fixpoint tokens_fuel (fuel : nat) (s : str) : list str :=
  match fuel, s with
  | S fuel', c :: s' =>
      match match_at _ANSI_ESC None s with
      | Some m => group m 0 :: tokens_fuel fuel' (skipn (length (group m 0)) s)
      | None => [c] :: tokens_fuel fuel' s'
      end
  | _, _ => []
  end.

Definition tokens (s : str) : list str := tokens_fuel (length s) s.

Definition is_seq (t : str) : bool := found (match_at _ANSI_ESC None t).

(** The characters among tokens that are not control sequences. *)
Definition visible_tokens (toks : list str) : nat :=
  length (filter (fun t => negb (is_seq t)) toks).

(** The visible length: the characters that are not part of a control
    sequence. *)
Definition visible_len (s : str) : Z := Z.of_nat (visible_tokens (tokens s)).

(** [s] holds a control sequence. *)
Definition has_seq (s : str) : bool := existsb is_seq (tokens s).

(** The parameters and the final letter of a control sequence, read off
    the text after ["\033["], and the text after them. *)
Fixpoint csi_end (t : str) : option (str * str) :=
  match t with
  | [] => None
  | c :: t' =>
      if CharClass.param c then
        match csi_end t' with
        | Some (body, r) => Some (c :: body, r)
        | None => None
        end
      else if CharClass.letter c then Some ([c], t')
      else None
  end.

(** The control sequence a string starts with, and the rest. *)
Definition ansi_at (s : str) : option (str * str) :=
  match s with
  | e :: b :: t =>
      if (Ascii.eqb ESC e && Ascii.eqb "[" b)%bool then
        match csi_end t with
        | Some (body, r) => Some (e :: b :: body, r)
        | None => None
        end
      else None
  | _ => None
  end.

(** A text that cannot complete a control sequence begun before it. *)
Definition inert (y : str) : Prop :=
  match y with [] => True | c :: _ => c = ESC end.

(* ================================================================= *)
(** ** The keys of the progress screen *)

Record session : Type := {
  interval : Z;
  paused : bool;
  last_poll : Q
}.

(** The locals of [_progress_ui] when its loop starts. *)
Definition session_init : session :=
  {| interval := 5; paused := false; last_poll := 0 |}.

Definition key_in (k : str) (keys : list str) : bool := existsb (str_eqb k) keys.

(** One pass over the key dispatch of the main loop, for the bytes [ch]
    that [os.read(fd, 4)] returned; [None] is [break]. *)
Definition on_key (ch : str) (s : session) : option session :=
  let k := firstn 1 ch in
  if key_in k [s2l "q"; s2l "Q"; [ascii_of_N 3]; [ESC]] then None
  else if key_in k [s2l "p"; s2l "P"] then
    Some {| interval := interval s; paused := negb (paused s);
            last_poll := last_poll s |}
  else if key_in k [s2l "r"; s2l "R"] then
    Some {| interval := interval s; paused := paused s; last_poll := 0 |}
  else if str_eqb k (s2l "+") then
    Some {| interval := Z.min 60 (interval s + 1); paused := paused s;
            last_poll := last_poll s |}
  else if str_eqb k (s2l "-") then
    Some {| interval := Z.max 1 (interval s - 1); paused := paused s;
            last_poll := last_poll s |}
  else Some s.

(** The session after a sequence of reads, up to the first [break]. *)
Fixpoint on_keys (chs : list str) (s : session) : session :=
  match chs with
  | [] => s
  | ch :: rest =>
      match on_key ch s with
      | Some s' => on_keys rest s'
      | None => s
      end
  end.

(* ================================================================= *)
(** ** The specification's vocabulary *)

(** The events of the Progress Parser. *)
Inductive Event : Type :=
| NoSignal
| Progress (pct : option Q)
| Errored
| ImplicitDone.

(** The percentage of a text as the specification words it: a literal
    percent, failing that a ratio over 65535 or 65536, else none. *)
Definition spec_percent (rawText : str) : option Q :=
  match search pct_re rawText with
  | Some m => Some (float (group m 1))
  | None =>
      match search ratio_re rawText with
      | Some m => Some (float (group m 1) / float (group m 2) * 100)
      | None => None
      end
  end.

(** The Progress Parser as the specification words it. *)
Definition parse (rawText : str) (everStarted : bool) : Event :=
  if found (search progress_re rawText) then Progress (spec_percent rawText)
  else if found (search error_re rawText) then Errored
  else if everStarted then ImplicitDone
  else NoSignal.

(** The specification's ETA formula. *)
Definition spec_eta (lastPercent lastSampleAt now_ p : Q) : str :=
  if (Qlt_bool 0 (now_ - lastSampleAt) && Qlt_bool 0 (p - lastPercent))%bool
  then fmt_duration ((100 - p) / ((p - lastPercent) / (now_ - lastSampleAt)))
  else ETA_UNKNOWN.

(** The transition table of the specification: the state and the log
    lines an event leaves. *)
Definition apply_event (now_ : Q) (ev : Event) (st : DevState)
    : DevState * list str :=
  match ev with
  | NoSignal => (st, [])
  | Progress None => (set_started st, [])
  | Progress (Some p) =>
      (set_sample (set_started st)
                  (spec_eta (prev_pct st) (prev_time st) now_ p) p now_, [])
  | Errored =>
      (set_final st failed 0 ETA_UNKNOWN, [log_line "FORMAT_FAILED" st])
  | ImplicitDone =>
      (set_final st done 100 (s2l "done"), [log_line "FORMAT_COMPLETE" st])
  end.

(** The text of a poll round: the outputs of the invocations that
    completed, joined; none when no invocation completed or one raised
    something else than a timeout. *)
Definition poll_text (w : world) (st : DevState) : option str :=
  match invoke_all w (poll_cmds (sg_path st)) [] [] with
  | (Ok (o :: os), _) => Some (join [LF] (o :: os))
  | _ => None
  end.

(** No character of [s] is a digit. *)
Definition no_digit (s : str) : bool :=
  forallb (fun c => negb (CharClass.digit c)) s.

(** Successive calls of [_poll] on one device, a world per call: the state
    reached and all the commands invoked on the way. *)
Fixpoint poll_rounds (ws : list world) (st : DevState)
    : DevState * list cmdline :=
  match ws with
  | [] => (st, [])
  | w :: ws' =>
      let o := _poll w st in
      let (st', inv) := poll_rounds ws' (after o) in
      (st', invoked o ++ inv)
  end.

(** [needle in hay] *)
Fixpoint starts_with (needle hay : str) : bool :=
  match needle, hay with
  | [], _ => true
  | a :: n', b :: h' => (Ascii.eqb a b && starts_with n' h')%bool
  | _ :: _, [] => false
  end.

Fixpoint contains_str (needle hay : str) : bool :=
  (starts_with needle hay
   || match hay with
      | [] => false
      | _ :: h' => contains_str needle h'
      end)%bool.

(** The call that does nothing. *)
Definition untouched (st : DevState) (inv : list cmdline) : outcome :=
  {| raised := None; after := st; invoked := inv; logged := [] |}.

(** A device as [DevState.__init__] leaves it, for the examples. *)
Definition sda : DevState :=
  DevState_init (s2l "/dev/sda") (s2l "/dev/sg0") (SlotNo 2)
                (s2l "ST4000NM0023") (s2l "Z1Z0ABCD") 0 0.

Definition with_status (st : DevState) (s : status_t) (started : bool) (p : Q)
    : DevState :=
  {| path := path st; sg_path := sg_path st; slot := slot st;
     model := model st; serial := serial st;
     status := s; ever_started := started;
     progress := p; eta := eta st; start := start st;
     prev_pct := p; prev_time := prev_time st |}.

(** A world in which the plain command gives [a] and the [--progress]
    command gives [b], at clock reading [t]. *)
Definition world_of (a b : run_result) (t : Q) : world :=
  {| run := fun cmd _ => if (length cmd =? 2)%nat then a else b; now := t |}.

(* ================================================================= *)
(** ** Runs of polls *)

(** The order of the states: [waiting], then [formatting], then the two
    terminal states. *)
Definition rank (s : status_t) : nat :=
  match s with
  | waiting => 0
  | formatting => 1
  | done | failed => 2
  end.

(** The lines logged by successive calls of [_poll] on one device. *)
Fixpoint poll_log (ws : list world) (st : DevState) : list str :=
  match ws with
  | [] => []
  | w :: ws' => logged (_poll w st) ++ poll_log ws' (after (_poll w st))
  end.

(** What the fields of a device hold in each status. *)
Definition consistent (st : DevState) : Prop :=
  0 <= progress st <= 100 /\
  match status st with
  | waiting =>
      ever_started st = false /\ progress st = 0 /\ eta st = ETA_UNKNOWN
  | formatting => ever_started st = true
  | done =>
      ever_started st = true /\ progress st = 100 /\ eta st = s2l "done"
  | failed => progress st = 0 /\ eta st = ETA_UNKNOWN
  end.

(* ================================================================= *)
(** ** Colours *)

(** [_a(code, t)], with the global [_TTY] as an argument. *)
Definition _a (_TTY : bool) (code t : str) : str :=
  if _TTY then ESC :: s2l "[" ++ code ++ s2l "m" ++ t ++ RST else t.

Definition bold (_TTY : bool) (t : str) : str := _a _TTY (s2l "1") t.
Definition dim (_TTY : bool) (t : str) : str := _a _TTY (s2l "2") t.
Definition ylw (_TTY : bool) (t : str) : str := _a _TTY (s2l "33") t.
Definition cyn (_TTY : bool) (t : str) : str := _a _TTY (s2l "36") t.
Definition bred (_TTY : bool) (t : str) : str := _a _TTY (s2l "1;31") t.
Definition bgrn (_TTY : bool) (t : str) : str := _a _TTY (s2l "1;32") t.
Definition bcyn (_TTY : bool) (t : str) : str := _a _TTY (s2l "1;36") t.

(* ================================================================= *)
(** ** The main loop of [_progress_ui] *)

(** [for s in states: _poll(s)]: the devices in order, each with the
    world of its own call; an exception leaves the loop, the devices
    after it unpolled. *)
Fixpoint poll_each (wf : nat -> world) (i : nat) (states : list DevState)
    : option exn * list DevState * list cmdline * list str :=
  match states with
  | [] => (None, [], [], [])
  | s :: rest =>
      let o := _poll (wf i) s in
      match raised o with
      | Some e => (Some e, after o :: rest, invoked o, logged o)
      | None =>
          let '(e, rest', inv, lg) := poll_each wf (S i) rest in
          (e, after o :: rest', invoked o ++ inv, logged o ++ lg)
      end
  end.

(** [not paused and (now - last_poll) >= interval] *)
Definition poll_due (now_ : Q) (s : session) : bool :=
  (negb (paused s) && Qle_bool (inject_Z (interval s)) (now_ - last_poll s))%bool.

(** [all(s.status in ("done", "failed") for s in states)
     and any(s.ever_started for s in states)] *)
Definition all_finished (states : list DevState) : bool :=
  (forallb (fun s => terminal (status s)) states
   && existsb ever_started states)%bool.

Inductive tick_end : Type :=
| Quit               (* [break] on a quit key *)
| Finished           (* the completion screen, then [break] *)
| Again              (* [draw(); time.sleep(0.2)] and the next pass *)
| Failed (e : exn).  (* an exception left the loop *)

Record tick_out : Type := {
  t_end : tick_end;
  t_session : session;
  t_states : list DevState;
  t_invoked : list cmdline;
  t_logged : list str
}.

(** One pass of the [while True] loop: [pending] is what [os.read]
    returns when [select] reports input, [now_] the clock reading of the
    pass, [wf i] the world of the poll of device [i]. *)
Definition tick (pending : option str) (now_ : Q) (wf : nat -> world)
    (ss : session) (states : list DevState) : tick_out :=
  match (match pending with Some ch => on_key ch ss | None => Some ss end) with
  | None =>
      {| t_end := Quit; t_session := ss; t_states := states;
         t_invoked := []; t_logged := [] |}
  | Some ss1 =>
      if poll_due now_ ss1 then
        let ss2 := {| interval := interval ss1; paused := paused ss1;
                      last_poll := now_ |} in
        let '(e, states1, inv, lg) := poll_each wf 0 states in
        {| t_end := match e with
                    | Some e => Failed e
                    | None => if all_finished states1 then Finished else Again
                    end;
           t_session := ss2; t_states := states1;
           t_invoked := inv; t_logged := lg |}
      else
        {| t_end := if all_finished states then Finished else Again;
           t_session := ss1; t_states := states;
           t_invoked := []; t_logged := [] |}
  end.

(** [next_in = max(0, interval - int(time.monotonic() - last_poll))] of
    [draw]. *)
Definition next_in (now_ : Q) (s : session) : Z :=
  Z.max 0 (interval s - int_of_float (now_ - last_poll s)).

(** [c * n] on strings: no copy for [n <= 0]. *)
Definition str_mul (c : str) (n : Z) : str := concat (repeat c (Z.to_nat n)).

(** The progress bar of a [formatting] row of [draw]. *)
Definition bar_width (cols fixed_visible : Z) : Z :=
  Z.max 8 (Z.min 48 (cols - fixed_visible - 2)).

Definition bar_filled (progress_ : Q) (bw : Z) : Z :=
  int_of_float (progress_ * inject_Z bw / 100).

Definition bar (progress_ : Q) (bw : Z) : str :=
  let filled := bar_filled progress_ bw in
  str_mul (s2l "#") filled ++ str_mul (s2l ".") (bw - filled).

Definition status_t_eq_dec (a b : status_t) : {a = b} + {a <> b}.
Proof. decide equality. Defined.

(** The tallies of [draw]. *)
Definition count_status (x : status_t) (states : list DevState) : Z :=
  Z.of_nat (length (filter (fun s => if status_t_eq_dec (status s) x
                                     then true else false) states)).

Definition GRN : str := ESC :: s2l "[32m".
Definition BGRN : str := ESC :: s2l "[1;32m".
Definition RED : str := ESC :: s2l "[31m".
Definition WHT : str := ESC :: s2l "[37m".

(** The parts of the tally line, and the line before [_L] cuts it. *)
Definition tally_parts (states : list DevState) : list str :=
  let n_done := count_status done states in
  let n_fail := count_status failed states in
  let n_fmt := count_status formatting states in
  let n_wait := count_status waiting states in
  (if negb (Z.eqb n_done 0) then [BGRN ++ str_of_int n_done ++ s2l " done" ++ RST] else [])
  ++ (if negb (Z.eqb n_fmt 0) then [GRN ++ str_of_int n_fmt ++ s2l " formatting" ++ RST] else [])
  ++ (if negb (Z.eqb n_wait 0) then [WHT ++ str_of_int n_wait ++ s2l " waiting" ++ RST] else [])
  ++ (if negb (Z.eqb n_fail 0) then [RED ++ str_of_int n_fail ++ s2l " failed" ++ RST] else []).

Definition tally_line (states : list DevState) : str :=
  let joined := join (s2l "  |  ") (tally_parts states) in
  s2l "  " ++ (match joined with [] => s2l "..." | _ => joined end).

(* ================================================================= *)
(** ** Devices and their discovery *)

(** [PORTS] and [SLOTS] *)
Definition PORTS : list str :=
  [ s2l "/dev/disk/by-path/pci-<PCI_ADDR>-sas-exp0x<EXPANDER_WWN>-phy6-lun-0";
    s2l "/dev/disk/by-path/pci-<PCI_ADDR>-sas-exp0x<EXPANDER_WWN>-phy4-lun-0";
    s2l "/dev/disk/by-path/pci-<PCI_ADDR>-sas-exp0x<EXPANDER_WWN>-phy11-lun-0";
    s2l "/dev/disk/by-path/pci-<PCI_ADDR>-sas-exp0x<EXPANDER_WWN>-phy9-lun-0";
    s2l "/dev/disk/by-path/pci-<PCI_ADDR>-sas-exp0x<EXPANDER_WWN>-phy5-lun-0";
    s2l "/dev/disk/by-path/pci-<PCI_ADDR>-sas-exp0x<EXPANDER_WWN>-phy3-lun-0";
    s2l "/dev/disk/by-path/pci-<PCI_ADDR>-sas-exp0x<EXPANDER_WWN>-phy10-lun-0";
    s2l "/dev/disk/by-path/pci-<PCI_ADDR>-sas-exp0x<EXPANDER_WWN>-phy8-lun-0";
    s2l "/dev/disk/by-path/pci-<PCI_ADDR>-sas-exp0x<EXPANDER_WWN>-phy2-lun-0";
    s2l "/dev/disk/by-path/pci-<PCI_ADDR>-sas-exp0x<EXPANDER_WWN>-phy7-lun-0";
    s2l "/dev/disk/by-path/pci-<PCI_ADDR>-sas-exp0x<EXPANDER_WWN>-phy16-lun-0";
    s2l "/dev/disk/by-path/pci-<PCI_ADDR>-sas-exp0x<EXPANDER_WWN>-phy17-lun-0" ].

Definition SLOTS : list Z := [2; 5; 8; 11; 1; 4; 7; 10; 0; 3; 6; 9]%Z.

(** [dict(pairs).get(key)]: a dict built from pairs holds, for a key, the
    value of the last pair with that key. *)
Fixpoint dict_get {V} (pairs : list (str * V)) (key : str) : option V :=
  match pairs with
  | [] => None
  | (k, v) :: rest =>
      match dict_get rest key with
      | Some v' => Some v'
      | None => if str_eqb k key then Some v else None
      end
  end.

(** [PORT_TO_SLOT = dict(zip(PORTS, SLOTS))] *)
Definition PORT_TO_SLOT : list (str * Z) := combine PORTS SLOTS.

Module Device.

(** [class Device] *)
Record t : Type := {
  path : str;
  port : str;
  slot : slot_t;
  model : str;
  serial : str;
  health : str;
  size : str
}.

(** [Device.__init__] *)
Definition init (path' port' : str) : t :=
  {| path := path'; port := port';
     slot := match dict_get PORT_TO_SLOT port' with
             | Some n => SlotNo n
             | None => SlotUnknown
             end;
     model := []; serial := []; health := s2l "?"; size := [] |}.

End Device.

(** What [discover] asks the file system: whether a path is a block
    device, and the path it resolves to. *)
Record filesystem : Type := {
  is_block_device : str -> bool;
  resolve : str -> str
}.

(** The loop of [discover]; [seen] is the set of the resolved paths met
    so far. *)
Fixpoint discover_loop (fs : filesystem) (ports : list str) (seen : list str)
    (devices : list Device.t) : list Device.t :=
  match ports with
  | [] => devices
  | port' :: rest =>
      if is_block_device fs port' then
        let real := resolve fs port' in
        if existsb (str_eqb real) seen then discover_loop fs rest seen devices
        else discover_loop fs rest (real :: seen)
                           (devices ++ [Device.init real port'])
      else discover_loop fs rest seen devices
  end.

Definition discover (fs : filesystem) : list Device.t :=
  discover_loop fs PORTS [] [].

(* ================================================================= *)
(** ** Words of a line *)

(** [s.strip()] *)
Fixpoint lstrip (s : str) : str :=
  match s with
  | c :: s' => if CharClass.space c then lstrip s' else s
  | [] => []
  end.

Definition py_strip (s : str) : str := rev (lstrip (rev (lstrip s))).

(** [s.lower()] on code points below 256: the letters A-Z and the
    accented capitals 192-222, the multiplication sign 215 apart. *)
Definition py_lower_char (c : ascii) : ascii :=
  if (CharClass.upper c
      || (in_range 192 222 c && negb (N.eqb (code c) 215)))%bool
  then ascii_of_N (code c + 32) else c.

Definition py_lower (s : str) : str := map py_lower_char s.

(** [s.split()]: the maximal runs of characters that are not white
    space; [cur] is the run being read, backwards. *)
Fixpoint split_ws (s : str) (cur : str) : list str :=
  match s with
  | [] => match cur with [] => [] | _ => [rev cur] end
  | c :: s' =>
      if CharClass.space c then
        match cur with
        | [] => split_ws s' []
        | _ => rev cur :: split_ws s' []
        end
      else split_ws s' (c :: cur)
  end.

Definition py_split (s : str) : list str := split_ws s [].

(** [int(tok)] for a token without white space: an optional sign, then
    digits, single underscores allowed between digits; [None] is
    [ValueError]. *)
Fixpoint int_digits (s : str) (acc : Z) (after_digit : bool) : option Z :=
  match s with
  | [] => if after_digit then Some acc else None
  | c :: s' =>
      if CharClass.digit c then int_digits s' (10 * acc + digit_val c)%Z true
      else if (Ascii.eqb c "_" && after_digit)%bool then int_digits s' acc false
      else None
  end.

Definition py_int (tok : str) : option Z :=
  match tok with
  | "+"%char :: ds => int_digits ds 0%Z false
  | "-"%char :: ds => option_map Z.opp (int_digits ds 0%Z false)
  | _ => int_digits tok 0%Z false
  end.

(** [devices[i]] for [0 <= i < len(devices)]. *)
Definition item {A} (l : list A) (i : Z) : option A := nth_error l (Z.to_nat i).

(** [pick_devices], from the line [raw_input] that [input] returns. *)
Fixpoint pick_tokens (devices : list Device.t) (toks : list str)
    : list Device.t :=
  match toks with
  | [] => []
  | tok :: rest =>
      match py_int tok with
      | Some idx =>
          if ((1 <=? idx) && (idx <=? Z.of_nat (length devices)))%Z%bool then
            match item devices (idx - 1) with
            | Some d => d :: pick_tokens devices rest
            | None => pick_tokens devices rest
            end
          else pick_tokens devices rest
      | None => pick_tokens devices rest
      end
  end.

Definition pick_devices (devices : list Device.t) (raw_input : str)
    : list Device.t :=
  let raw := py_strip raw_input in
  if str_eqb (py_lower raw) (s2l "all") then devices
  else pick_tokens devices (py_split raw).

(* ================================================================= *)
(** ** Choosing the devices to monitor, and formatting *)

Fixpoint word_of (s : str) : str :=
  match s with
  | c :: s' => if CharClass.space c then [] else c :: word_of s'
  | [] => []
  end.

Fixpoint after_word (s : str) : str :=
  match s with
  | c :: s' => if CharClass.space c then s else after_word s'
  | [] => []
  end.

(** [s.split(maxsplit=1)]: the first word, and the rest without the
    white space before it, when there is one. *)
Definition py_split1 (s : str) : list str :=
  match lstrip s with
  | [] => []
  | s1 =>
      match lstrip (after_word s1) with
      | [] => [word_of s1]
      | rest => [word_of s1; rest]
      end
  end.

(** The device [cmd_progress] builds for a path that [discover] did not
    return, from the output of [lsblk -dn -o MODEL,SERIAL]. *)
Definition device_of_lsblk (p : str) (stdout : str) : Device.t :=
  let d := Device.init p [] in
  let parts := py_split1 (py_strip stdout) in
  {| Device.path := Device.path d; Device.port := Device.port d;
     Device.slot := Device.slot d;
     Device.model := match parts with m :: _ => m | [] => [] end;
     Device.serial := match parts with _ :: s :: _ => s | _ => [] end;
     Device.health := Device.health d; Device.size := Device.size d |}.

(** The loop of [cmd_progress] over [args.devices]; [lsblk p] is what
    running [lsblk] on [p] gives: its standard output, or an exception. *)
Fixpoint select_devices (devices : list Device.t) (lsblk : str -> res str)
    (args_devices : list str) : res (list Device.t) :=
  match args_devices with
  | [] => Ok []
  | p :: rest =>
      d <- match dict_get (map (fun d => (Device.path d, d)) devices) p with
           | Some d => Ok d
           | None => out <- lsblk p ;; Ok (device_of_lsblk p out)
           end ;;
      selected <- select_devices devices lsblk rest ;;
      Ok (d :: selected)
  end.

(** What [cmd_format] does to the world, in order. *)
Inductive fmt_event : Type :=
| EvLogAborted (devs : list str)          (* [log("FORMAT_ABORTED ...")] *)
| EvPrep (dev_path : str)                 (* [prep_for_format(d.path)] *)
| EvLaunch (cmd : cmdline)                (* [subprocess.Popen(cmd, ...)] is called *)
| EvLogStarted (fast : bool) (d : Device.t)
| EvLogStartFailed (fast : bool) (d : Device.t)
| EvMonitor (started : list Device.t).    (* [_progress_ui(started)] *)

(** The world of [cmd_format]: the sg device of a path, and what the
    [i]-th launch of a command gives, an exception or the process, seen
    through the return code that [p.poll()] reports a quarter of a second
    later ([None] while it runs). *)
Record fmt_world : Type := {
  sg_device : str -> str;
  popen : nat -> cmdline -> res (option Z)
}.

Definition format_cmd (fw : fmt_world) (fast_mode : bool) (d : Device.t)
    : cmdline :=
  [s2l "sg_format"; s2l "--format"; s2l "--size=512"]
  ++ (if fast_mode then [s2l "--ffmt=1"] else [])
  ++ [sg_device fw (Device.path d)].

(** The first loop: every device is prepared and its format launched;
    an exception of [Popen] ends the function, the formats launched
    before it left running. *)
Fixpoint launch_all (fw : fmt_world) (fast_mode : bool) (i : nat)
    (selected : list Device.t)
    : res (list (Device.t * option Z)) * list fmt_event :=
  match selected with
  | [] => (Ok [], [])
  | d :: rest =>
      let cmd := format_cmd fw fast_mode d in
      match popen fw i cmd with
      | Err e => (Err e, [EvPrep (Device.path d); EvLaunch cmd])
      | Ok rc =>
          let (r, evs) := launch_all fw fast_mode (S i) rest in
          (match r with Ok l => Ok ((d, rc) :: l) | Err e => Err e end,
           EvPrep (Device.path d) :: EvLaunch cmd :: evs)
      end
  end.

(** [rc is None or rc == 0] *)
Definition is_running (rc : option Z) : bool :=
  match rc with None => true | Some n => Z.eqb n 0 end.

(** The second loop: the devices whose format runs, and the log. *)
Fixpoint check_launches (fast_mode : bool)
    (launches : list (Device.t * option Z))
    : list Device.t * list fmt_event :=
  match launches with
  | [] => ([], [])
  | (d, rc) :: rest =>
      let (started, evs) := check_launches fast_mode rest in
      if is_running rc then (d :: started, EvLogStarted fast_mode d :: evs)
      else (started, EvLogStartFailed fast_mode d :: evs)
  end.

(** The commands launched, and the devices handed to the monitor. *)
Definition launches_of (evs : list fmt_event) : list cmdline :=
  flat_map (fun e => match e with EvLaunch c => [c] | _ => [] end) evs.

Definition monitored_of (evs : list fmt_event) : list (list Device.t) :=
  flat_map (fun e => match e with EvMonitor l => [l] | _ => [] end) evs.

Definition prepared_of (evs : list fmt_event) : list str :=
  flat_map (fun e => match e with EvPrep p => [p] | _ => [] end) evs.

Record fmt_out : Type := {
  f_result : res bool;           (* the value returned, or the exception *)
  f_events : list fmt_event
}.

(** [cmd_format] from the devices picked on: [args_fast] is [args.fast],
    [mode_answer] the answer to the mode prompt if it is asked,
    [confirm_answer] the answer to "Type YES to confirm".  What is
    printed is left out; [input], the logger and [p.poll()] are taken not
    to raise, and [f_result] after [EvMonitor] is the value returned once
    [_progress_ui] has returned. *)
Definition cmd_format_selected (fw : fmt_world) (args_fast : bool)
    (mode_answer confirm_answer : str) (selected : list Device.t) : fmt_out :=
  match selected with
  | [] => {| f_result := Ok false; f_events := [] |}
  | _ =>
      let fast_mode :=
        if args_fast then true
        else
          let mode_in := py_lower (py_strip mode_answer) in
          (str_eqb mode_in (s2l "f") || str_eqb mode_in (s2l "fast"))%bool in
      if negb (str_eqb (py_strip confirm_answer) (s2l "YES")) then
        {| f_result := Ok false;
           f_events := [EvLogAborted (map Device.path selected)] |}
      else
        match launch_all fw fast_mode 0 selected with
        | (Err e, evs) => {| f_result := Err e; f_events := evs |}
        | (Ok launches, evs) =>
            let (started, logs) := check_launches fast_mode launches in
            match started with
            | [] => {| f_result := Ok true; f_events := evs ++ logs |}
            | _ => {| f_result := Ok false;
                      f_events := evs ++ logs ++ [EvMonitor started] |}
            end
        end
  end.

(** The slot [Device.__init__] gives a port. *)
Definition slot_of_port (port' : str) : slot_t :=
  match dict_get PORT_TO_SLOT port' with
  | Some n => SlotNo n
  | None => SlotUnknown
  end.

(** No string occurs twice. *)
Fixpoint nodupb (l : list str) : bool :=
  match l with
  | [] => true
  | x :: l' => (negb (existsb (str_eqb x) l') && nodupb l')%bool
  end.

(** The values a minutes or seconds field can take. *)
Definition upto60 : list Z := map Z.of_nat (seq 0 60).

(* ================================================================= *)
(** * Facts about the matcher *)

Module ReFacts.

Ltac inv H := inversion H; subst; clear H.

Lemma orelse_none_r {A} (x : option A) : orelse x None = x.
Proof. destruct x; reflexivity. Qed.

Lemma orelse_some {A} (x y : option A) (a : A) :
  orelse x y = Some a -> x = Some a \/ (x = None /\ y = Some a).
Proof. destruct x; simpl; intros H; [left | right]; auto. Qed.

Lemma rep_sound {A} p (k : option ascii -> str -> option A) x :
  forall s lo hi prev,
    rep p lo hi prev s k = Some x ->
    exists taken s',
      s = taken ++ s' /\ forallb p taken = true /\
      (lo <= length taken)%nat /\ within (length taken) hi /\
      k (last_prev prev taken) s' = Some x.
Proof.
  induction s as [|c s IH]; intros lo hi prev H; simpl in H.
  - destruct (Nat.eqb_spec lo 0) as [->|]; [|discriminate].
    exists [], []. repeat split; auto. destruct hi; simpl; lia.
  - assert (Hstop : (if (lo =? 0)%nat then k prev (c :: s) else None) = Some x ->
                    exists taken s', c :: s = taken ++ s' /\ forallb p taken = true /\
                      (lo <= length taken)%nat /\ within (length taken) hi /\
                      k (last_prev prev taken) s' = Some x).
    { intros Hs. destruct (Nat.eqb_spec lo 0) as [->|]; [|discriminate].
      exists [], (c :: s). repeat split; auto. destruct hi; simpl; lia. }
    destruct (p c) eqn:Hp; simpl in H; [|auto].
    destruct (may_take hi) eqn:Hm; simpl in H; [|auto].
    apply orelse_some in H. destruct H as [H|[_ H]]; [|auto].
    apply IH in H. destruct H as (taken & s' & -> & Hall & Hlo & Hhi & Hk).
    exists (c :: taken), s'. simpl. rewrite Hp, Hall. repeat split; auto.
    + lia.
    + destruct hi as [[|h]|]; simpl in *; try discriminate; auto; lia.
Qed.

Lemma rmatch_sound r :
  forall A prev s cs (k : kont A) x,
    rmatch r prev s cs k = Some x ->
    exists prev' s' cs',
      matches r prev s cs prev' s' cs' /\ k prev' s' cs' = Some x.
Proof.
  induction r; intros A prev s cs k x H; simpl in H.
  - exists prev, s, cs. split; [constructor | assumption].
  - destruct s as [|c s]; [discriminate|].
    destruct (p c) eqn:Hp; [|discriminate].
    exists (Some c), s, cs. split; [constructor; assumption | assumption].
  - apply IHr1 in H. destruct H as (p1 & s1 & cs1 & M1 & H).
    apply IHr2 in H. destruct H as (p2 & s2 & cs2 & M2 & H).
    exists p2, s2, cs2. split; [econstructor; eassumption | assumption].
  - apply orelse_some in H. destruct H as [H|[_ H]].
    + apply IHr1 in H. destruct H as (p1 & s1 & cs1 & M1 & H).
      exists p1, s1, cs1. split; [apply M_alt_l; assumption | assumption].
    + apply IHr2 in H. destruct H as (p1 & s1 & cs1 & M1 & H).
      exists p1, s1, cs1. split; [apply M_alt_r; assumption | assumption].
  - apply rep_sound in H.
    destruct H as (taken & s' & -> & Hall & Hlo & Hhi & Hk).
    exists (last_prev prev taken), s', cs. split; [constructor; assumption | assumption].
  - apply orelse_some in H. destruct H as [H|[_ H]].
    + apply IHr in H. destruct H as (p1 & s1 & cs1 & M1 & H).
      exists p1, s1, cs1. split; [apply M_opt_some; assumption | assumption].
    + exists prev, s, cs. split; [apply M_opt_none | assumption].
  - apply IHr in H. destruct H as (p1 & s1 & cs1 & M1 & H).
    exists p1, s1, ((i, firstn (length s - length s1) s) :: cs1).
    split; [constructor; assumption | assumption].
  - destruct (xorb (is_word prev) (is_word (hd_error s))) eqn:Hb; [|discriminate].
    exists prev, s, cs. split; [constructor; assumption | assumption].
Qed.

(** A match consumes a prefix of the subject. *)
Lemma matches_prefix r prev s cs prev' s' cs' :
  matches r prev s cs prev' s' cs' -> exists taken, s = taken ++ s'.
Proof.
  induction 1; try (exists []; reflexivity); auto.
  - exists [c]; reflexivity.
  - destruct IHmatches1 as [t1 ->]. destruct IHmatches2 as [t2 ->].
    exists (t1 ++ t2). now rewrite app_assoc.
  - exists taken; reflexivity.
Qed.

Lemma firstn_taken {A} (taken rest : list A) :
  firstn (length (taken ++ rest) - length rest) (taken ++ rest) = taken.
Proof.
  rewrite length_app, Nat.add_sub.
  rewrite firstn_app, Nat.sub_diag, firstn_all. simpl. apply app_nil_r.
Qed.

Lemma matches_lit w prev s cs prev' s' cs' :
  matches (lit w) prev s cs prev' s' cs' -> s = w ++ s' /\ cs' = cs.
Proof.
  revert prev s cs. induction w as [|a w IH]; intros prev s cs H.
  - inv H. auto.
  - destruct w as [|b w].
    + simpl in H. inv H. unfold CharClass.only in *.
      match goal with Hc : Ascii.eqb _ _ = true |- _ => apply Ascii.eqb_eq in Hc; subst end.
      auto.
    + change (lit (a :: b :: w)) with (Cat (chr a) (lit (b :: w))) in H.
      inv H.
      match goal with Hc : matches (chr _) _ _ _ _ _ _ |- _ => inv Hc end.
      unfold CharClass.only in *.
      match goal with Hc : Ascii.eqb _ _ = true |- _ => apply Ascii.eqb_eq in Hc; subst end.
      match goal with
      | Hc : matches _ (Some _) _ _ _ _ _ |- _ =>
          apply (IH (Some c)) in Hc; destruct Hc as [-> ->]
      end.
      auto.
Qed.

Lemma match_at_sound r prev s m :
  match_at r prev s = Some m ->
  exists prev' s' cs,
    matches r prev s [] prev' s' cs /\
    m = (0%nat, firstn (length s - length s') s) :: cs.
Proof.
  unfold match_at. intros H. apply rmatch_sound in H.
  destruct H as (p1 & s1 & cs1 & M1 & H). inv M1. inv H. eauto.
Qed.

Lemma search_from_sound r :
  forall s prev m,
    search_from r prev s = Some m ->
    exists pre prev' s', s = pre ++ s' /\ match_at r prev' s' = Some m.
Proof.
  induction s as [|c s IH]; intros prev m H; simpl in H.
  - destruct (match_at r prev []) eqn:E; [|discriminate]. inv H.
    exists [], prev, []. auto.
  - destruct (match_at r prev (c :: s)) eqn:E.
    + inv H. exists [], prev, (c :: s). auto.
    + apply IH in H. destruct H as (pre & prev' & s' & -> & H).
      exists (c :: pre), prev', s'. auto.
Qed.

Lemma matches_alt r1 r2 prev s cs prev' s' cs' :
  matches (Alt r1 r2) prev s cs prev' s' cs' ->
  matches r1 prev s cs prev' s' cs' \/ matches r2 prev s cs prev' s' cs'.
Proof. intros H; inv H; auto. Qed.

(** The groups of a match of the ratio pattern, whatever pattern [l]
    the second group holds. *)
Lemma ratio_shape l prev s prev' s' cs :
  matches
    (Cat Bnd
    (Cat (Grp 1 (Rep 1 (Some 5%nat) CharClass.digit))
    (Cat (Rep 0 None CharClass.space)
    (Cat (chr "/")
    (Cat (Rep 0 None CharClass.space)
    (Cat (Grp 2 l) Bnd))))))
    prev s [] prev' s' cs ->
  exists p2 s2 cs1 p2' s2' cs2,
    matches l p2 s2 cs1 p2' s2' cs2 /\
    cs = (2%nat, firstn (length s2 - length s2') s2) :: cs2.
Proof.
  intros M.
  repeat match goal with
         | Hc : matches (Cat _ _) _ _ _ _ _ _ |- _ => inv Hc
         | Hc : matches Bnd _ _ _ _ _ _ |- _ => inv Hc
         | Hc : matches (Grp _ _) _ _ _ _ _ _ |- _ => inv Hc
         | Hc : matches (Rep _ _ _) _ _ _ _ _ _ |- _ => inv Hc
         | Hc : matches (chr _) _ _ _ _ _ _ |- _ => inv Hc
         end.
  eauto 10.
Qed.

(** The second group of a ratio is one of the two denominators. *)
Lemma ratio_denominator s m :
  search ratio_re s = Some m ->
  group m 2 = s2l "65535" \/ group m 2 = s2l "65536".
Proof.
  intros H. apply search_from_sound in H.
  destruct H as (pre & prev' & s' & _ & H).
  apply match_at_sound in H. destruct H as (p1 & s1 & cs & M & ->).
  unfold ratio_re in M. apply ratio_shape in M.
  destruct M as (p2 & s2 & cs1 & p2' & s2' & cs2 & M & ->).
  simpl group.
  apply matches_alt in M.
  destruct M as [M|M]; apply matches_lit in M; destruct M as [-> ->].
  - left. apply (firstn_taken (s2l "65535")).
  - right. apply (firstn_taken (s2l "65536")).
Qed.

End ReFacts.

(* ================================================================= *)
(** * Facts about floats *)

Lemma Qlt_bool_iff (x y : Q) : Qlt_bool x y = true <-> x < y.
Proof.
  unfold Qlt_bool. rewrite negb_true_iff. split; intros H.
  - apply Qnot_le_lt. intros Hle. apply Qle_bool_iff in Hle. congruence.
  - destruct (Qle_bool y x) eqn:E; [|reflexivity].
    apply Qle_bool_iff in E. exfalso. exact (Qlt_not_le _ _ H E).
Qed.

Lemma fdiv_ok (a b : Q) : ~ b == 0 -> fdiv a b = Ok (a / b).
Proof.
  intros H. unfold fdiv. destruct (Qeq_bool b 0) eqn:E; [|reflexivity].
  apply Qeq_bool_iff in E. contradiction.
Qed.

Lemma Qpos_nonzero (x : Q) : 0 < x -> ~ x == 0.
Proof. intros H E. rewrite E in H. exact (Qlt_irrefl _ H). Qed.

Lemma rate_positive (dp dt : Q) : 0 < dt -> 0 < dp -> 0 < dp / dt.
Proof.
  intros Ht Hp. unfold Qdiv. apply Qmult_lt_0_compat; [assumption|].
  apply Qinv_lt_0_compat; assumption.
Qed.

(** The clamp of [_poll] lands in [0, 100]. *)
Lemma clamp_range (p : Q) : 0 <= py_max 0 (py_min 100 p) <= 100.
Proof.
  unfold py_max, py_min.
  destruct (Qlt_bool p 100) eqn:E1.
  - apply Qlt_bool_iff in E1.
    destruct (Qlt_bool 0 p) eqn:E2.
    + apply Qlt_bool_iff in E2. split; apply Qlt_le_weak; assumption.
    + split; [apply Qle_refl | discriminate].
  - destruct (Qlt_bool 0 100) eqn:E2; split; try apply Qle_refl; discriminate.
Qed.

(* ================================================================= *)
(** * Facts about the poller *)

(** The division of a ratio never fails: its denominator is 65535 or
    65536. *)
Lemma extract_pct_spec (text : str) : extract_pct text = Ok (spec_percent text).
Proof.
  unfold extract_pct, spec_percent.
  destruct (search pct_re text); [reflexivity|].
  destruct (search ratio_re text) as [m|] eqn:E; [|reflexivity].
  apply ReFacts.ratio_denominator in E.
  rewrite fdiv_ok; [reflexivity|].
  destruct E as [-> | ->]; vm_compute; discriminate.
Qed.

(** Neither division of the ETA fails. *)
Lemma eta_of_spec (st : DevState) (now_ pct : Q) :
  eta_of pct (now_ - prev_time st) (pct - prev_pct st)
  = Ok (spec_eta (prev_pct st) (prev_time st) now_ pct).
Proof.
  unfold eta_of, spec_eta.
  destruct (Qlt_bool 0 (now_ - prev_time st)) eqn:Et; [|reflexivity].
  destruct (Qlt_bool 0 (pct - prev_pct st)) eqn:Ep; [|reflexivity].
  apply Qlt_bool_iff in Et. apply Qlt_bool_iff in Ep. simpl.
  rewrite fdiv_ok by (apply Qpos_nonzero; assumption). simpl.
  rewrite fdiv_ok by (apply Qpos_nonzero, rate_positive; assumption).
  reflexivity.
Qed.

(** The body of [_poll] is the transition table applied to the parsed
    event. *)
Lemma poll_output_refines (w : world) (text : str) (st : DevState)
    (inv : list cmdline) :
  poll_output w text st inv
  = let (st', lg) := apply_event (now w) (parse text (ever_started st)) st in
    {| raised := None; after := st'; invoked := inv; logged := lg |}.
Proof.
  unfold poll_output, parse. rewrite extract_pct_spec.
  destruct (found (search progress_re text)).
  - destruct (spec_percent text) as [p|]; [|reflexivity].
    change (prev_time (set_started st)) with (prev_time st).
    change (prev_pct (set_started st)) with (prev_pct st).
    rewrite eta_of_spec. reflexivity.
  - destruct (found (search error_re text)); [reflexivity|].
    destruct (ever_started st); reflexivity.
Qed.

Lemma invoke_all_invoked (w : world) :
  forall cmds outputs inv outputs' inv',
    invoke_all w cmds outputs inv = (Ok outputs', inv') -> inv' = inv ++ cmds.
Proof.
  induction cmds as [|cmd cmds IH]; intros outputs inv outputs' inv' H; simpl in H.
  - inversion H. now rewrite app_nil_r.
  - destruct (run w cmd 10%Z) as [out err|[]]; try discriminate;
      apply IH in H; rewrite H, <- app_assoc; reflexivity.
Qed.

(** A round with a text: [_poll] applies the transition of its event. *)
Lemma poll_with_text (w : world) (st : DevState) (text : str) :
  terminal (status st) = false ->
  poll_text w st = Some text ->
  _poll w st
  = let (st', lg) := apply_event (now w) (parse text (ever_started st)) st in
    {| raised := None; after := st'; invoked := poll_cmds (sg_path st);
       logged := lg |}.
Proof.
  intros Ht Hx. unfold _poll, poll_text in *. rewrite Ht.
  destruct (invoke_all w (poll_cmds (sg_path st)) [] []) as [[outs|e] inv] eqn:E;
    [|discriminate].
  apply invoke_all_invoked in E. simpl in E. subst inv.
  destruct outs as [|o os]; [discriminate|].
  inversion Hx; subst. apply poll_output_refines.
Qed.

(** A round without a text: nothing completed, or an invocation raised. *)
Lemma poll_without_text (w : world) (st : DevState) :
  terminal (status st) = false ->
  poll_text w st = None ->
  after (_poll w st) = st /\ logged (_poll w st) = [] /\
  (raised (_poll w st) = None \/
   exists e cmd, raised (_poll w st) = Some e /\ e <> TimeoutExpired /\
                 In cmd (poll_cmds (sg_path st)) /\ run w cmd 10%Z = Raises e).
Proof.
  intros Ht Hx. unfold _poll, poll_text in *. rewrite Ht.
  unfold poll_cmds in *. simpl in *.
  destruct (run w [s2l "sg_requests"; sg_path st] 10%Z) as [o1 e1|x1] eqn:R1;
    [|destruct x1];
    (destruct (run w [s2l "sg_requests"; s2l "--progress"; sg_path st] 10%Z)
       as [o2 e2|x2] eqn:R2; [|destruct x2]);
    simpl in *; try discriminate;
    (split; [reflexivity | split; [reflexivity|]]);
    first [ left; reflexivity
          | right; eexists _, _; split; [reflexivity|];
            split; [discriminate|]; split; [|eassumption]; auto ].
Qed.

Lemma terminal_cases (s : status_t) :
  terminal s = true <-> s = done \/ s = failed.
Proof. destruct s; simpl; intuition discriminate. Qed.

(** The status an event leads to. *)
Lemma apply_event_status (now_ : Q) (ev : Event) (st : DevState) :
  status (fst (apply_event now_ ev st))
  = match ev with
    | NoSignal => status st
    | Progress _ => formatting
    | Errored => failed
    | ImplicitDone => done
    end.
Proof. destruct ev as [|[p|]| |]; reflexivity. Qed.

(* ================================================================= *)
(** * The poll state machine *)

Section PollStateMachine.

Variable w : world.
Variable st : DevState.

(** [_poll] either applies the event of the round's text, or leaves the
    state alone. *)
Lemma poll_cases :
  (exists inv, after (_poll w st) = st /\ logged (_poll w st) = [] /\
               invoked (_poll w st) = inv) \/
  (exists text,
      terminal (status st) = false /\ poll_text w st = Some text /\
      raised (_poll w st) = None /\
      after (_poll w st)
      = fst (apply_event (now w) (parse text (ever_started st)) st)).
Proof.
  destruct (terminal (status st)) eqn:Ht.
  - left. exists []. unfold _poll. rewrite Ht. auto.
  - destruct (poll_text w st) as [text|] eqn:Hx.
    + right. exists text. rewrite (poll_with_text w st text Ht Hx).
      destruct (apply_event _ _ _). auto.
    + left. destruct (poll_without_text w st Ht Hx) as (Ha & Hl & _). eauto.
Qed.

(** Only an invocation's own exception leaves [_poll], never a timeout
    and never a division by zero. *)
Lemma poll_raised (e : exn) :
  raised (_poll w st) = Some e ->
  e <> TimeoutExpired /\ after (_poll w st) = st /\
  exists cmd, In cmd (poll_cmds (sg_path st)) /\ run w cmd 10%Z = Raises e.
Proof.
  intros H. destruct (terminal (status st)) eqn:Ht.
  - unfold _poll in H. rewrite Ht in H. discriminate.
  - destruct (poll_text w st) as [text|] eqn:Hx.
    + rewrite (poll_with_text w st text Ht Hx) in H.
      destruct (apply_event _ _ _). discriminate.
    + destruct (poll_without_text w st Ht Hx) as (Ha & _ & [Hn|Hr]).
      * congruence.
      * destruct Hr as (e' & cmd & He & Hne & Hin & Hrun).
        assert (e' = e) by congruence. subst. eauto.
Qed.

End PollStateMachine.

(** C1. Once a device poll state is [done] or [failed], a call of [_poll]
    invokes no command, logs nothing and returns the state as it was:
    status, progress, eta, ever_started, prev_pct and prev_time keep their
    values; so does any number of further calls. *)
Theorem poll_terminal_noop (st : DevState) :
  status st = done \/ status st = failed ->
  (forall w, _poll w st = untouched st []) /\
  (forall ws, poll_rounds ws st = (st, [])).
Proof.
  intros H. apply terminal_cases in H.
  assert (H1 : forall w, _poll w st = untouched st []).
  { intros w. unfold _poll. rewrite H. reflexivity. }
  split; [exact H1|].
  induction ws as [|w ws IH]; [reflexivity|].
  simpl. rewrite H1. simpl. rewrite IH. reflexivity.
Qed.

Lemma poll_terminal_noop_witness :
  let st := with_status sda done true 100 in
  (forall w, _poll w st = untouched st []) /\
  (forall ws, poll_rounds ws st = (st, [])).
Proof. apply (poll_terminal_noop (with_status sda done true 100)). left. reflexivity. Defined.






(** C4. A device that never started ([waiting], [ever_started] false)
    and polls a text with no progress marker and no error keyword is left
    as it was; and a poll takes a device to [done] only when
    [ever_started] was already true and the text had neither a marker nor
    an error keyword. *)
Theorem silence_needs_a_start (w : world) (st : DevState) :
  (status st = waiting -> ever_started st = false ->
   forall text,
     poll_text w st = Some text ->
     found (search progress_re text) = false ->
     found (search error_re text) = false ->
     _poll w st = untouched st (poll_cmds (sg_path st))) /\
  (status st <> done -> status (after (_poll w st)) = done ->
   ever_started st = true /\
   exists text,
     poll_text w st = Some text /\
     found (search progress_re text) = false /\
     found (search error_re text) = false).
Proof.
  split.
  - intros Hs He text Hx Hp Hr.
    rewrite (poll_with_text w st text); [|rewrite Hs; reflexivity|assumption].
    unfold parse. rewrite Hp, Hr, He. reflexivity.
  - intros Hn Hd.
    destruct (poll_cases w st) as [(inv & Ha & _)|(text & Ht & Hx & _ & Ha)];
      rewrite Ha in Hd; [contradiction|].
    rewrite apply_event_status in Hd. unfold parse in Hd.
    destruct (found (search progress_re text)) eqn:Hp; [discriminate|].
    destruct (found (search error_re text)) eqn:Hr; [discriminate|].
    destruct (ever_started st); [|contradiction].
    split; [reflexivity|]. exists text. auto.
Qed.

Lemma silence_needs_a_start_witness :
  let w := world_of (Completed (s2l "sense key: no sense") [])
                    (Completed [] []) 5 in
  _poll w sda = untouched sda (poll_cmds (sg_path sda)).
Proof.
  apply (proj1 (silence_needs_a_start
                  (world_of (Completed (s2l "sense key: no sense") [])
                            (Completed [] []) 5) sda)
          eq_refl eq_refl _ eq_refl);
    vm_compute; reflexivity.
Defined.






(** C10. When both invocations time out, [_poll] returns with the device
    state as it was and logs nothing, whatever [ever_started] is; and a
    poll takes a device to [done] only if an invocation completed. *)
Theorem poll_all_timeouts_is_noop (w : world) (st : DevState) :
  ((forall cmd, In cmd (poll_cmds (sg_path st)) ->
                run w cmd 10%Z = Raises TimeoutExpired) ->
   raised (_poll w st) = None /\ after (_poll w st) = st /\
   logged (_poll w st) = []) /\
  (status st <> done -> status (after (_poll w st)) = done ->
   exists cmd out err,
     In cmd (poll_cmds (sg_path st)) /\ run w cmd 10%Z = Completed out err).
Proof.
  split.
  - intros H. unfold _poll.
    destruct (terminal (status st)); [auto|].
    unfold poll_cmds in *. cbn [invoke_all app].
    rewrite !H by (simpl; auto). auto.
  - intros Hn Hd.
    destruct (poll_cases w st) as [(inv & Ha & _)|(text & Ht & Hx & _ & _)].
    + rewrite Ha in Hd. contradiction.
    + unfold poll_text, poll_cmds in *. cbn [invoke_all app] in Hx.
      destruct (run w [s2l "sg_requests"; sg_path st] 10%Z) as [o1 e1|x1] eqn:R1.
      * exists [s2l "sg_requests"; sg_path st], o1, e1. simpl; auto.
      * destruct (run w [s2l "sg_requests"; s2l "--progress"; sg_path st] 10%Z)
          as [o2 e2|x2] eqn:R2.
        -- exists [s2l "sg_requests"; s2l "--progress"; sg_path st], o2, e2.
           simpl; auto.
        -- destruct x1, x2; discriminate.
Qed.

Lemma poll_all_timeouts_is_noop_witness :
  let w := world_of (Raises TimeoutExpired) (Raises TimeoutExpired) 5 in
  let st := with_status sda formatting true 80 in
  raised (_poll w st) = None /\ after (_poll w st) = st /\
  logged (_poll w st) = [].
Proof.
  apply (proj1 (poll_all_timeouts_is_noop
                  (world_of (Raises TimeoutExpired) (Raises TimeoutExpired) 5)
                  (with_status sda formatting true 80))).
  intros cmd [<-|[<-|[]]]; reflexivity.
Defined.

(** Silence after a start does complete the device when an invocation
    returned, be it with empty output. *)
Lemma empty_output_completes :
  let w := world_of (Completed [] []) (Raises TimeoutExpired) 5 in
  let st := with_status sda formatting true 80 in
  status (after (_poll w st)) = done.
Proof. reflexivity. Qed.

(* ================================================================= *)
(** * The poll interval *)

Lemma on_key_interval (ch : str) (s s' : session) :
  on_key ch s = Some s' ->
  (1 <= interval s <= 60)%Z -> (1 <= interval s' <= 60)%Z.
Proof.
  unfold on_key. intros H Hr.
  repeat match type of H with
         | (if ?b then _ else _) = _ => destruct b
         end;
    inversion H; subst; simpl; lia.
Qed.

Lemma on_keys_interval (chs : list str) :
  forall s, (1 <= interval s <= 60)%Z ->
            (1 <= interval (on_keys chs s) <= 60)%Z.
Proof.
  induction chs as [|ch chs IH]; intros s Hr; simpl; [assumption|].
  destruct (on_key ch s) as [s'|] eqn:E; [|assumption].
  apply IH. exact (on_key_interval ch s s' E Hr).
Qed.

(** C9. From the initial interval of 5, every sequence of key reads
    leaves the interval an integer within [1, 60]; ['+'] sets it to
    [min(60, interval + 1)] and ['-'] to [max(1, interval - 1)], and they
    change nothing else. *)
Theorem interval_stays_in_bounds :
  (forall chs : list str,
      (1 <= interval (on_keys chs session_init) <= 60)%Z) /\
  (forall (s : session) (more : str),
      on_key ("+"%char :: more) s
      = Some {| interval := Z.min 60 (interval s + 1); paused := paused s;
                last_poll := last_poll s |}) /\
  (forall (s : session) (more : str),
      on_key ("-"%char :: more) s
      = Some {| interval := Z.max 1 (interval s - 1); paused := paused s;
                last_poll := last_poll s |}).
Proof.
  split; [|split].
  - intros chs. apply on_keys_interval. simpl. lia.
  - intros s more. reflexivity.
  - intros s more. reflexivity.
Qed.

(** Sixty presses of ['+'] from the start saturate at 60, and sixty of
    ['-'] at 1. *)
Lemma interval_saturates :
  interval (on_keys (repeat (s2l "+") 60) session_init) = 60%Z /\
  interval (on_keys (repeat (s2l "-") 60) session_init) = 1%Z.
Proof. split; vm_compute; reflexivity. Qed.

(* ================================================================= *)
(** * The percentage patterns at work *)

Section Searching.

Import ReFacts.

(** [search] walks over a prefix at whose characters no match starts. *)
Lemma search_from_skip (r : regex) (pre : str) :
  (forall prev c s, In c pre -> match_at r prev (c :: s) = None) ->
  forall prev s,
    search_from r prev (pre ++ s) = search_from r (last_prev prev pre) s.
Proof.
  induction pre as [|c pre IH]; intros H prev s; [reflexivity|].
  simpl. rewrite H by (left; reflexivity).
  apply IH. intros prev' c' s' Hin. apply H. right. assumption.
Qed.

Lemma search_from_hit (r : regex) prev s m :
  match_at r prev s = Some m -> search_from r prev s = Some m.
Proof. intros H. destruct s; simpl; rewrite H; reflexivity. Qed.

Lemma no_digit_In (pre : str) (c : ascii) :
  no_digit pre = true -> In c pre -> CharClass.digit c = false.
Proof.
  unfold no_digit. rewrite forallb_forall. intros H Hin.
  apply H in Hin. now apply negb_true_iff.
Qed.

(** Both percentage patterns start with a digit. *)
Lemma pct_re_needs_digit prev c s :
  CharClass.digit c = false -> match_at pct_re prev (c :: s) = None.
Proof. intros H. unfold match_at, pct_re. simpl. rewrite H. reflexivity. Qed.

Lemma ratio_re_needs_digit prev c s :
  CharClass.digit c = false -> match_at ratio_re prev (c :: s) = None.
Proof.
  intros H. unfold match_at, ratio_re. simpl. rewrite H. simpl.
  destruct (xorb _ _); reflexivity.
Qed.

Lemma pct_re_at_42_5 prev post :
  exists m, match_at pct_re prev (s2l "42.5%" ++ post) = Some m /\
            group m 1 = s2l "42.5".
Proof.
  eexists. split; [reflexivity|].
  simpl group. apply (firstn_taken (s2l "42.5") ("%"%char :: post)).
Qed.

Lemma ratio_re_at_12345 prev post :
  is_word prev = false -> is_word (hd_error post) = false ->
  exists m, match_at ratio_re prev (s2l "12345/65535" ++ post) = Some m /\
            group m 1 = s2l "12345" /\ group m 2 = s2l "65535".
Proof.
  intros Hp Hq. eexists. split.
  - unfold match_at, ratio_re.
    change (s2l "12345/65535" ++ post)
      with ("1"%char :: "2"%char :: "3"%char :: "4"%char :: "5"%char
            :: "/"%char :: "6"%char :: "5"%char :: "5"%char :: "3"%char
            :: "5"%char :: post).
    unfold s2l.
    cbn -[firstn length Nat.sub]. rewrite Hp.
    cbn -[firstn length Nat.sub]. rewrite Hq.
    cbn -[firstn length Nat.sub]. reflexivity.
  - split; simpl group.
    + apply (firstn_taken (s2l "12345") (s2l "/65535" ++ post)).
    + apply (firstn_taken (s2l "65535") post).
Qed.

Lemma search_pct_42_5 pre post :
  no_digit pre = true ->
  exists m, search pct_re (pre ++ s2l "42.5%" ++ post) = Some m /\
            group m 1 = s2l "42.5".
Proof.
  intros Hn. unfold search. rewrite search_from_skip.
  - destruct (pct_re_at_42_5 (last_prev None pre) post) as (m & Hm & Hg).
    exists m. split; [|assumption]. apply search_from_hit, Hm.
  - intros prev c s Hin. apply pct_re_needs_digit.
    exact (no_digit_In pre c Hn Hin).
Qed.

Lemma search_ratio_12345 pre post :
  no_digit pre = true ->
  is_word (last_prev None pre) = false -> is_word (hd_error post) = false ->
  exists m, search ratio_re (pre ++ s2l "12345/65535" ++ post) = Some m /\
            group m 1 = s2l "12345" /\ group m 2 = s2l "65535".
Proof.
  intros Hn Hp Hq. unfold search. rewrite search_from_skip.
  - destruct (ratio_re_at_12345 (last_prev None pre) post Hp Hq)
      as (m & Hm & Hg).
    exists m. split; [|assumption]. apply search_from_hit, Hm.
  - intros prev c s Hin. apply ratio_re_needs_digit.
    exact (no_digit_In pre c Hn Hin).
Qed.

End Searching.




(* ================================================================= *)
(** * Control sequences *)

Section ControlSequences.

Import ReFacts.

Local Arguments Ascii.eqb : simpl never.

Lemma param_not_letter c :
  CharClass.param c = true -> CharClass.letter c = false.
Proof.
  unfold CharClass.param, CharClass.letter, CharClass.digit,
    CharClass.upper, CharClass.lower, in_range.
  intros H.
  apply orb_true_iff in H.
  apply orb_false_iff. split; apply andb_false_iff.
  - destruct H as [H|H].
    + apply andb_true_iff in H. destruct H as [_ H].
      apply N.leb_le in H. left. apply N.leb_gt. lia.
    + apply N.eqb_eq in H. left. apply N.leb_gt. lia.
  - destruct H as [H|H].
    + apply andb_true_iff in H. destruct H as [_ H].
      apply N.leb_le in H. left. apply N.leb_gt. lia.
    + apply N.eqb_eq in H. left. apply N.leb_gt. lia.
Qed.

(** Greedy parameters followed by a letter: no shorter run of
    parameters is ever tried with success. *)
Lemma rep_param_then_letter {A} (f : str -> option A) :
  forall t prev,
    rep CharClass.param 0 None prev t
        (fun _ s' =>
           match s' with
           | c :: s'' => if CharClass.letter c then f s'' else None
           | [] => None
           end)
    = match csi_end t with
      | Some (_, r) => f r
      | None => None
      end.
Proof.
  induction t as [|c t IH]; intros prev; [reflexivity|].
  cbn [rep csi_end]. change (Nat.eqb 0 0) with true. cbv iota.
  destruct (CharClass.param c) eqn:Hp.
  - rewrite (param_not_letter c Hp). cbn. rewrite orelse_none_r, IH.
    destruct (csi_end t) as [[body r]|]; reflexivity.
  - cbn. destruct (CharClass.letter c); reflexivity.
Qed.

Lemma csi_end_app t body r :
  csi_end t = Some (body, r) -> t = body ++ r /\ body <> [].
Proof.
  revert body r. induction t as [|c t IH]; intros body r H; [discriminate|].
  simpl in H. destruct (CharClass.param c).
  - destruct (csi_end t) as [[b' r']|]; [|discriminate].
    inversion H; subst. destruct (IH b' r eq_refl) as [-> _].
    split; [reflexivity | discriminate].
  - destruct (CharClass.letter c); [|discriminate].
    inversion H; subst. split; [reflexivity | discriminate].
Qed.

Lemma ansi_at_app s m r :
  ansi_at s = Some (m, r) ->
  s = m ++ r /\ exists m', m = ESC :: m'.
Proof.
  destruct s as [|e [|b t]]; try discriminate. simpl.
  destruct (Ascii.eqb_spec ESC e) as [<-|]; simpl; [|discriminate].
  destruct (Ascii.eqb "[" b); simpl; [|discriminate].
  destruct (csi_end t) as [[body r']|] eqn:E; [|discriminate].
  intros H. inversion H; subst.
  destruct (csi_end_app t body r E) as [-> _].
  split; [reflexivity | eauto].
Qed.

(** The matcher finds at the head of a string the control sequence
    [ansi_at] reads there. *)
Lemma match_at_ansi prev s :
  match_at _ANSI_ESC prev s
  = match ansi_at s with
    | Some (m, _) => Some [(0%nat, m)]
    | None => None
    end.
Proof.
  unfold match_at, _ANSI_ESC.
  destruct s as [|e [|b t]]; [reflexivity| |].
  - cbn. unfold CharClass.only. destruct (Ascii.eqb _ e); reflexivity.
  - cbn [rmatch chr ansi_at]. unfold CharClass.only.
    destruct (Ascii.eqb ESC e); [|reflexivity].
    destruct (Ascii.eqb "[" b); [|reflexivity]. cbn [andb].
    rewrite (rep_param_then_letter
               (fun s'' => Some [(0%nat, firstn (length (e :: b :: t) - length s'')
                                                (e :: b :: t))])).
    destruct (csi_end t) as [[body r]|] eqn:E; [|reflexivity].
    destruct (csi_end_app t body r E) as [-> _].
    do 2 f_equal. f_equal.
    apply (firstn_taken (e :: b :: body) r).
Qed.

(** A control sequence is read whatever follows it. *)
Lemma csi_end_follow m r :
  csi_end (m ++ r) = Some (m, r) ->
  forall y, csi_end (m ++ y) = Some (m, y).
Proof.
  induction m as [|c m IH]; intros H y.
  - apply csi_end_app in H. destruct H as [_ H]. contradiction.
  - simpl in *. destruct (CharClass.param c).
    + destruct (csi_end (m ++ r)) as [[b' r']|] eqn:E; [|discriminate].
      inversion H; subst. rewrite (IH eq_refl y). reflexivity.
    + destruct (CharClass.letter c); [|discriminate].
      injection H as Hm Hr. destruct m; [reflexivity | discriminate Hm].
Qed.

Lemma ansi_at_follow m r :
  ansi_at (m ++ r) = Some (m, r) ->
  forall y, ansi_at (m ++ y) = Some (m, y).
Proof.
  intros H y.
  destruct (ansi_at_app _ _ _ H) as [_ [m' ->]].
  destruct m' as [|b body].
  - exfalso. destruct r as [|b t]; cbn [app ansi_at] in H; [discriminate|].
    destruct (_ && _)%bool; [|discriminate].
    destruct (csi_end t) as [[body r']|]; [|discriminate].
    injection H as Hb Hr. discriminate Hb.
  - cbn [app ansi_at] in *.
    destruct (_ && _)%bool; [|discriminate].
    destruct (csi_end (body ++ r)) as [[body' r']|] eqn:E; [|discriminate].
    injection H as Hb Hr. subst body' r'.
    rewrite (csi_end_follow body r E y). reflexivity.
Qed.

(** An inert text completes no control sequence. *)
Lemma csi_end_inert a y body r :
  inert y -> csi_end (a ++ y) = Some (body, r) ->
  forall b, exists r', csi_end (a ++ b) = Some (body, r').
Proof.
  intros Hy. revert body r. induction a as [|c a IH]; intros body r H b.
  - simpl in H. destruct y as [|c y]; [discriminate|].
    simpl in Hy. subst c. discriminate.
  - simpl in *. destruct (CharClass.param c).
    + destruct (csi_end (a ++ y)) as [[b' r']|] eqn:E; [|discriminate].
      inversion H; subst.
      destruct (IH b' r eq_refl b) as [r'' ->]. eauto.
    + destruct (CharClass.letter c); [|discriminate].
      inversion H; subst. eauto.
Qed.

Lemma ansi_at_inert c a y :
  inert y -> forall b,
    ansi_at (c :: a ++ b) = None -> ansi_at (c :: a ++ y) = None.
Proof.
  intros Hy b Hn.
  destruct (ansi_at (c :: a ++ y)) as [[m r]|] eqn:E; [|reflexivity].
  exfalso. destruct a as [|x a].
  - simpl in E. destruct y as [|d y]; [discriminate|].
    simpl in Hy. subst d.
    destruct (Ascii.eqb ESC c); discriminate.
  - simpl in E, Hn.
    destruct (Ascii.eqb ESC c && Ascii.eqb "[" x)%bool; [|discriminate].
    destruct (csi_end (a ++ y)) as [[body r']|] eqn:E'; [|discriminate].
    destruct (csi_end_inert a y body r' Hy E' b) as [r'' Hb].
    rewrite Hb in Hn. discriminate.
Qed.

End ControlSequences.

(* ================================================================= *)
(** * Truncation to a visible width *)

Section Truncation.

Local Arguments Ascii.eqb : simpl never.

Lemma skipn_taken {A} (m r : list A) : skipn (length m) (m ++ r) = r.
Proof. induction m; simpl; auto. Qed.

(** One step of the token reader. *)
Lemma tokens_fuel_step fuel c s :
  tokens_fuel (S fuel) (c :: s)
  = match ansi_at (c :: s) with
    | Some (m, r) => m :: tokens_fuel fuel r
    | None => [c] :: tokens_fuel fuel s
    end.
Proof.
  cbn [tokens_fuel]. rewrite match_at_ansi.
  destruct (ansi_at (c :: s)) as [[m r]|] eqn:E; [|reflexivity].
  destruct (ansi_at_app _ _ _ E) as [-> _].
  cbn [group Nat.eqb]. rewrite skipn_taken. reflexivity.
Qed.

(** One step of the loop of [_vis_trunc]. *)
Lemma vis_loop_step fuel c s width visible result :
  vis_loop (S fuel) (c :: s) width visible result
  = match ansi_at (c :: s) with
    | Some (m, r) => vis_loop fuel r width visible (result ++ m)
    | None =>
        if (visible >=? width)%Z then Some result
        else vis_loop fuel s width (visible + 1)%Z (result ++ [c])
    end.
Proof.
  cbn [vis_loop]. rewrite match_at_ansi.
  destruct (ansi_at (c :: s)) as [[m r]|] eqn:E; [|reflexivity].
  destruct (ansi_at_app _ _ _ E) as [-> _].
  cbn [group Nat.eqb]. rewrite skipn_taken. reflexivity.
Qed.

Lemma ansi_at_shorter s m r :
  ansi_at s = Some (m, r) -> (length r < length s)%nat.
Proof.
  intros H. destruct (ansi_at_app _ _ _ H) as [-> [m' ->]].
  simpl. rewrite length_app. lia.
Qed.

(** The token reader needs no more fuel than the length of the string. *)
Lemma tokens_fuel_enough :
  forall f1 s f2,
    (length s <= f1)%nat -> (length s <= f2)%nat ->
    tokens_fuel f1 s = tokens_fuel f2 s.
Proof.
  induction f1 as [|f1 IH]; intros s f2 H1 H2.
  - destruct s; [|simpl in H1; lia]. destruct f2; reflexivity.
  - destruct s as [|c s]; [destruct f2; reflexivity|].
    destruct f2 as [|f2]; [simpl in H2; lia|].
    rewrite !tokens_fuel_step.
    destruct (ansi_at (c :: s)) as [[m r]|] eqn:E.
    + apply ansi_at_shorter in E. simpl in *.
      f_equal. apply IH; lia.
    + simpl in *. f_equal. apply IH; lia.
Qed.

Lemma tokens_nil : tokens [] = [].
Proof. reflexivity. Qed.

Lemma tokens_seq m r :
  ansi_at (m ++ r) = Some (m, r) -> tokens (m ++ r) = m :: tokens r.
Proof.
  intros H. pose proof (ansi_at_shorter _ _ _ H) as L.
  destruct (ansi_at_app _ _ _ H) as [_ [m' ->]].
  unfold tokens. cbn [app length] in *.
  rewrite tokens_fuel_step. cbn [app] in H. rewrite H.
  f_equal. apply tokens_fuel_enough; lia.
Qed.

Lemma tokens_chr c s :
  ansi_at (c :: s) = None -> tokens (c :: s) = [c] :: tokens s.
Proof.
  intros H. unfold tokens. cbn [length].
  rewrite tokens_fuel_step, H. reflexivity.
Qed.

(** Induction along the tokens of a string. *)
Lemma token_ind (P : str -> Prop) :
  P [] ->
  (forall m r, ansi_at (m ++ r) = Some (m, r) -> P r -> P (m ++ r)) ->
  (forall c s, ansi_at (c :: s) = None -> P s -> P (c :: s)) ->
  forall s, P s.
Proof.
  intros Hnil Hseq Hchr s.
  remember (length s) as n eqn:Hn. revert s Hn.
  induction n as [n IH] using lt_wf_ind. intros s Hn.
  destruct s as [|c s]; [exact Hnil|].
  destruct (ansi_at (c :: s)) as [[m r]|] eqn:E.
  - pose proof (ansi_at_shorter _ _ _ E) as L.
    destruct (ansi_at_app _ _ _ E) as [Hs _].
    rewrite Hs in E |- *. apply Hseq; [exact E|].
    apply (IH (length r)); [subst n; exact L | reflexivity].
  - apply Hchr; [exact E|].
    apply (IH (length s)); [subst n; simpl; lia | reflexivity].
Qed.

(** The tokens of a string make up the string. *)
Lemma concat_tokens s : concat (tokens s) = s.
Proof.
  induction s as [|m r E IH|c s E IH] using token_ind.
  - reflexivity.
  - rewrite (tokens_seq m r E). simpl. now rewrite IH.
  - rewrite (tokens_chr c s E). simpl. now rewrite IH.
Qed.

Lemma is_seq_ansi t :
  is_seq t = match ansi_at t with Some _ => true | None => false end.
Proof.
  unfold is_seq. rewrite match_at_ansi.
  destruct (ansi_at t) as [[m r]|]; reflexivity.
Qed.

Lemma is_seq_match m r : ansi_at (m ++ r) = Some (m, r) -> is_seq m = true.
Proof.
  intros H. rewrite is_seq_ansi.
  pose proof (ansi_at_follow m r H []) as H'. rewrite app_nil_r in H'.
  now rewrite H'.
Qed.

Lemma is_seq_single c : is_seq [c] = false.
Proof. rewrite is_seq_ansi. reflexivity. Qed.

Lemma contains_char_In c s : contains_char c s = true <-> In c s.
Proof.
  unfold contains_char. rewrite existsb_exists. split.
  - intros (x & Hin & Hx). apply Ascii.eqb_eq in Hx. now subst.
  - intros Hin. exists c. split; [assumption | apply Ascii.eqb_refl].
Qed.

Lemma is_seq_has_ESC t : is_seq t = true -> contains_char ESC t = true.
Proof.
  rewrite is_seq_ansi. destruct (ansi_at t) as [[m r]|] eqn:E; [|discriminate].
  intros _. destruct (ansi_at_app _ _ _ E) as [-> [m' ->]].
  apply contains_char_In. left. reflexivity.
Qed.

(** The loop returns, with a whole number of the tokens of [s] added to
    [result], at most [width - visible] of them visible. *)
Lemma vis_loop_spec (width : Z) (s : str) :
  forall fuel visible result,
    (length s < fuel)%nat ->
    exists k,
      vis_loop fuel s width visible result
      = Some (result ++ concat (firstn k (tokens s))) /\
      (Z.of_nat (visible_tokens (firstn k (tokens s)))
       <= Z.max 0 (width - visible))%Z.
Proof.
  induction s as [|m r E IH|c s E IH] using token_ind;
    intros fuel visible result L.
  - destruct fuel; [simpl in L; lia|].
    exists 0%nat. simpl. rewrite app_nil_r. split; [reflexivity | lia].
  - pose proof (ansi_at_shorter _ _ _ E) as L'.
    destruct fuel as [|fuel]; [lia|].
    pose proof (is_seq_match m r E) as Hseq.
    pose proof (tokens_seq m r E) as Htok.
    destruct (ansi_at_app _ _ _ E) as [_ [m' Hm]].
    rewrite Hm in E, L. cbn [app] in E, L.
    assert (Hstep : vis_loop (S fuel) (m ++ r) width visible result
                    = vis_loop fuel r width visible (result ++ m)).
    { rewrite Hm at 1. cbn [app]. rewrite vis_loop_step, E, <- Hm.
      reflexivity. }
    assert (Lr : (length r < fuel)%nat)
      by (rewrite Hm in L'; simpl in L, L'; lia).
    destruct (IH fuel visible (result ++ m) Lr) as (k & Hk & Hv).
    exists (S k). rewrite Hstep, Hk, Htok. cbn [firstn concat].
    rewrite <- app_assoc. split; [reflexivity|].
    unfold visible_tokens in *. cbn [filter]. rewrite Hseq. exact Hv.
  - destruct fuel as [|fuel]; [simpl in L; lia|].
    rewrite vis_loop_step, E, (tokens_chr c s E).
    destruct (visible >=? width)%Z eqn:Hw.
    + exists 0%nat. simpl. rewrite app_nil_r. split; [reflexivity | lia].
    + destruct (IH fuel (visible + 1)%Z (result ++ [c])) as (k & Hk & Hv);
        [simpl in L; lia|].
      exists (S k). rewrite Hk. cbn [firstn concat].
      rewrite <- app_assoc. split; [reflexivity|].
      unfold visible_tokens in *. cbn [filter]. rewrite is_seq_single.
      cbn [negb length]. rewrite Z.geb_leb in Hw. apply Z.leb_gt in Hw. lia.
Qed.

(** A whole number of tokens of [s], followed by an inert text, reads
    as those tokens followed by the tokens of the inert text. *)
Lemma tokens_prefix_inert (y : str) (Hy : inert y) (s : str) :
  forall k,
    tokens (concat (firstn k (tokens s)) ++ y)
    = firstn k (tokens s) ++ tokens y.
Proof.
  induction s as [|m r E IH|c s E IH] using token_ind; intros k.
  - rewrite tokens_nil, firstn_nil. reflexivity.
  - rewrite (tokens_seq m r E). destruct k as [|k]; [reflexivity|].
    cbn [firstn concat]. rewrite <- !app_assoc.
    rewrite tokens_seq by (apply (ansi_at_follow m r E)).
    cbn [app]. now rewrite IH.
  - rewrite (tokens_chr c s E). destruct k as [|k]; [reflexivity|].
    cbn [firstn concat app].
    rewrite tokens_chr; [now rewrite IH|].
    apply (ansi_at_inert c _ y Hy (concat (skipn k (tokens s)))).
    rewrite <- concat_app, firstn_skipn, concat_tokens. exact E.
Qed.

Lemma tokens_RST : tokens RST = [RST].
Proof. reflexivity. Qed.

(** A string that holds a control sequence holds an escape character. *)
Lemma has_seq_has_ESC s : has_seq s = true -> contains_char ESC s = true.
Proof.
  unfold has_seq. rewrite existsb_exists. intros (t & Hin & Ht).
  apply is_seq_has_ESC in Ht. apply contains_char_In in Ht.
  apply contains_char_In. rewrite <- (concat_tokens s).
  apply in_concat. eauto.
Qed.

End Truncation.

(** C8. Truncating a string to a width [width >= 0] returns; the output
    is a whole number of the tokens of the string (control sequences and
    single characters), so no control sequence is cut, followed or not by
    the reset sequence; its visible length is at most [width]; and if it
    holds a control sequence it ends with the reset sequence. *)
Theorem vis_trunc_fits (s : str) (width : Z) :
  (0 <= width)%Z ->
  exists out k,
    _vis_trunc s width = Some out /\
    (out = concat (firstn k (tokens s)) \/
     out = concat (firstn k (tokens s)) ++ RST) /\
    (visible_len out <= width)%Z /\
    (has_seq out = true -> exists body, out = body ++ RST).
Proof.
  intros Hw.
  destruct (vis_loop_spec width s (S (length s)) 0%Z [] (Nat.lt_succ_diag_r _))
    as (k & Hk & Hv).
  cbn [app] in Hk. rewrite Z.sub_0_r, Z.max_r in Hv by assumption.
  unfold _vis_trunc. rewrite Hk.
  set (res := concat (firstn k (tokens s))) in *.
  destruct (contains_char ESC res) eqn:He.
  - exists (res ++ RST), k. repeat split; auto.
    + unfold visible_len. fold (visible_tokens (tokens (res ++ RST))).
      unfold res. rewrite tokens_prefix_inert by reflexivity.
      rewrite tokens_RST. unfold visible_tokens in *.
      rewrite filter_app, length_app. simpl. lia.
    + eauto.
  - exists res, k. repeat split; auto.
    + unfold visible_len. fold (visible_tokens (tokens res)).
      rewrite <- (app_nil_r res). unfold res.
      rewrite tokens_prefix_inert by exact I.
      rewrite tokens_nil, app_nil_r. exact Hv.
    + intros Hs. apply has_seq_has_ESC in Hs. congruence.
Qed.

Lemma vis_trunc_fits_witness :
  exists out k,
    _vis_trunc (ESC :: s2l "[32mHello world" ++ RST) 5 = Some out /\
    (out = concat (firstn k (tokens (ESC :: s2l "[32mHello world" ++ RST))) \/
     out = concat (firstn k (tokens (ESC :: s2l "[32mHello world" ++ RST)))
           ++ RST) /\
    (visible_len out <= 5)%Z /\
    (has_seq out = true -> exists body, out = body ++ RST).
Proof.
  apply (vis_trunc_fits (ESC :: s2l "[32mHello world" ++ RST) 5).
  discriminate.
Defined.

(** A green "Hello world" cut to five columns keeps its colour sequence
    whole and is closed by a reset. *)
Lemma vis_trunc_example :
  _vis_trunc (ESC :: s2l "[32mHello world" ++ RST) 5
  = Some (ESC :: s2l "[32mHello" ++ RST).
Proof. reflexivity. Qed.

(* ================================================================= *)
(** * Runs of polls on one device *)

Lemma poll_on_terminal (w : world) (st : DevState) :
  terminal (status st) = true -> _poll w st = untouched st [].
Proof. intros H. unfold _poll. rewrite H. reflexivity. Qed.

(** What a call of [_poll] can do, by the event of its text. *)
Lemma poll_event_cases (w : world) (st : DevState) :
  (after (_poll w st) = st /\ logged (_poll w st) = []) \/
  (terminal (status st) = false /\
   exists ev,
     after (_poll w st) = fst (apply_event (now w) ev st) /\
     logged (_poll w st) = snd (apply_event (now w) ev st) /\
     (ev = ImplicitDone -> ever_started st = true)).
Proof.
  destruct (terminal (status st)) eqn:Ht.
  - left. rewrite (poll_on_terminal w st Ht). auto.
  - destruct (poll_text w st) as [text|] eqn:Hx.
    + right. split; [reflexivity|].
      exists (parse text (ever_started st)).
      rewrite (poll_with_text w st text Ht Hx).
      destruct (apply_event _ _ _) eqn:E. simpl. repeat split.
      unfold parse. intros H.
      destruct (found (search progress_re text)); [discriminate|].
      destruct (found (search error_re text)); [discriminate|].
      destruct (ever_started st); [reflexivity | discriminate].
    + left. destruct (poll_without_text w st Ht Hx) as (Ha & Hl & _). auto.
Qed.

(** X1. [_poll] never changes what identifies a device (path, sg path,
    slot, model, serial) nor its start time; it never resets
    [ever_started]; and the sample time is the old one or the clock
    reading of this call. *)
Theorem poll_keeps_identity (w : world) (st : DevState) :
  let st' := after (_poll w st) in
  path st' = path st /\ sg_path st' = sg_path st /\ slot st' = slot st /\
  model st' = model st /\ serial st' = serial st /\ start st' = start st /\
  (ever_started st = true -> ever_started st' = true) /\
  (prev_time st' = prev_time st \/ prev_time st' = now w).
Proof.
  intros st'. subst st'.
  destruct (poll_event_cases w st) as [[Ha _]|(_ & ev & Ha & _ & _)];
    rewrite Ha.
  - repeat split; auto.
  - destruct ev as [|[p|]| |]; simpl; repeat split; auto.
Qed.

(** X2. The status never moves backwards: a call of [_poll] leaves the
    status where it is or moves it forward in the order waiting,
    formatting, done/failed; in particular a device never returns to
    [waiting], and [done] and [failed] never turn into each other. *)
Theorem poll_status_forward (w : world) (st : DevState) :
  (rank (status st) <= rank (status (after (_poll w st))))%nat /\
  (status (after (_poll w st)) = waiting -> status st = waiting) /\
  (terminal (status st) = true ->
   status (after (_poll w st)) = status st).
Proof.
  destruct (poll_event_cases w st) as [[Ha _]|(Ht & ev & Ha & _ & _)];
    rewrite Ha.
  - repeat split; auto.
  - rewrite Ht. rewrite apply_event_status.
    destruct ev, (status st); simpl in *; repeat split;
      try discriminate; auto; lia.
Qed.

Lemma consistent_init path' sg slot' model' serial' t0 t1 :
  consistent (DevState_init path' sg slot' model' serial' t0 t1).
Proof.
  unfold consistent. simpl. repeat split; try reflexivity; discriminate.
Qed.

Lemma consistent_poll (w : world) (st : DevState) :
  consistent st -> consistent (after (_poll w st)).
Proof.
  intros Hc.
  destruct (poll_event_cases w st) as [[Ha _]|(Ht & ev & Ha & _ & Hd)];
    rewrite Ha; [assumption|].
  destruct Hc as [Hr Hs].
  destruct ev as [|[p|]| |]; unfold consistent; simpl.
  - auto.
  - split; [apply clamp_range | reflexivity].
  - split; [assumption | reflexivity].
  - repeat split; try reflexivity; discriminate.
  - repeat split; auto; discriminate.
Qed.

(** X3. Whatever the polls of a device return, from its creation on its
    progress stays within [0, 100] and its fields agree with its status:
    a [waiting] device has never started, shows progress 0 and no ETA; a
    [formatting] or [done] one has started; a [done] one shows progress
    100 and the ETA "done"; a [failed] one shows progress 0 and no ETA. *)
Theorem polled_device_is_consistent
    (path' sg : str) (slot' : slot_t) (model' serial' : str) (t0 t1 : Q)
    (ws : list world) :
  consistent
    (fst (poll_rounds ws (DevState_init path' sg slot' model' serial' t0 t1))).
Proof.
  assert (H : forall ws st, consistent st -> consistent (fst (poll_rounds ws st))).
  { clear. induction ws as [|w ws IH]; intros st Hc; [exact Hc|].
    simpl. specialize (IH (after (_poll w st)) (consistent_poll w st Hc)).
    destruct (poll_rounds ws (after (_poll w st))). exact IH. }
  apply H, consistent_init.
Qed.

Lemma poll_rounds_terminal (ws : list world) (st : DevState) :
  terminal (status st) = true ->
  fst (poll_rounds ws st) = st /\ poll_log ws st = [].
Proof.
  intros Ht. induction ws as [|w ws [IH1 IH2]]; [auto|].
  simpl. rewrite (poll_on_terminal w st Ht). simpl.
  destruct (poll_rounds ws st). simpl in *. auto.
Qed.

(** X4. Over any run of polls a device logs exactly one line if the run
    takes it to a terminal status, [FORMAT_FAILED] for [failed] and
    [FORMAT_COMPLETE] for [done], with the identity of the device, and
    no line at all otherwise. *)
Theorem one_log_line_per_device (ws : list world) (st : DevState) :
  terminal (status st) = false ->
  poll_log ws st
  = match status (fst (poll_rounds ws st)) with
    | failed => [log_line "FORMAT_FAILED" st]
    | done => [log_line "FORMAT_COMPLETE" st]
    | _ => []
    end.
Proof.
  revert st. induction ws as [|w ws IH]; intros st Ht.
  - simpl. destruct (status st); try reflexivity; discriminate.
  - simpl.
    assert (Hfst : fst (let (st', inv) := poll_rounds ws (after (_poll w st)) in
                        (st', invoked (_poll w st) ++ inv))
                   = fst (poll_rounds ws (after (_poll w st)))).
    { destruct (poll_rounds ws (after (_poll w st))). reflexivity. }
    rewrite Hfst. clear Hfst.
    destruct (poll_event_cases w st) as [[Ha Hl]|(_ & ev & Ha & Hl & _)];
      rewrite Hl, Ha.
    + simpl. apply IH, Ht.
    + destruct ev as [|[p|]| |]; simpl.
      * apply IH, Ht.
      * rewrite IH by reflexivity.
        destruct (status (fst (poll_rounds ws _))); reflexivity.
      * rewrite IH by reflexivity.
        destruct (status (fst (poll_rounds ws _))); reflexivity.
      * destruct (poll_rounds_terminal ws (set_final st failed 0 ETA_UNKNOWN)
                    eq_refl) as [-> ->].
        reflexivity.
      * destruct (poll_rounds_terminal ws (set_final st done 100 (s2l "done"))
                    eq_refl) as [-> ->].
        reflexivity.
Qed.

Lemma one_log_line_per_device_witness :
  let ws := [world_of (Completed (s2l "Format in progress 10%") []) (Completed [] []) 5;
             world_of (Completed [] []) (Completed [] []) 10;
             world_of (Completed (s2l "Format in progress 10%") []) (Completed [] []) 15] in
  poll_log ws sda = [log_line "FORMAT_COMPLETE" sda].
Proof.
  exact (one_log_line_per_device
           [world_of (Completed (s2l "Format in progress 10%") []) (Completed [] []) 5;
            world_of (Completed [] []) (Completed [] []) 10;
            world_of (Completed (s2l "Format in progress 10%") []) (Completed [] []) 15]
           sda eq_refl).
Defined.

(* ================================================================= *)
(** * The percentage and the ETA at the edges *)

Lemma int_of_float_nonpos (q : Q) : q <= 0 -> (int_of_float q <= 0)%Z.
Proof.
  unfold Qle, int_of_float. simpl. rewrite Z.mul_1_r. intros H.
  replace (Qnum q) with (- - Qnum q)%Z by lia.
  rewrite Z.quot_opp_l by discriminate.
  pose proof (Z.quot_pos (- Qnum q) (Zpos (Qden q))). lia.
Qed.

(** A duration that is not positive prints as zero seconds. *)
Lemma fmt_duration_nonpos (q : Q) : q <= 0 -> fmt_duration q = s2l "0s".
Proof.
  intros H. apply int_of_float_nonpos in H.
  unfold fmt_duration. rewrite Z.max_l by assumption. reflexivity.
Qed.



Section CapturedNumbers.

Import ReFacts.

Lemma digit_val_nonneg c : CharClass.digit c = true -> (0 <= digit_val c)%Z.
Proof.
  unfold CharClass.digit, in_range, digit_val. intros H.
  apply andb_true_iff in H. destruct H as [H _]. apply N.leb_le in H. lia.
Qed.

Lemma int_of_digits_nonneg d :
  forallb CharClass.digit d = true -> (0 <= int_of_digits d)%Z.
Proof.
  unfold int_of_digits.
  assert (H : forall acc, (0 <= acc)%Z -> forallb CharClass.digit d = true ->
              (0 <= fold_left (fun a c => (10 * a + digit_val c)%Z) d acc)%Z).
  { induction d as [|c d IH]; intros acc Ha Hd; cbn [fold_left]; [assumption|].
    simpl in Hd. apply andb_true_iff in Hd. destruct Hd as [Hc Hd].
    apply IH; [|assumption]. pose proof (digit_val_nonneg c Hc). lia. }
  apply H. lia.
Qed.

Lemma digit_not_dot c : CharClass.digit c = true -> Ascii.eqb c "." = false.
Proof.
  intros H. destruct (Ascii.eqb_spec c "."); [|reflexivity].
  subst. discriminate H.
Qed.

Lemma split_dot_digits d rest :
  forallb CharClass.digit d = true ->
  split_dot (d ++ rest) = (d ++ fst (split_dot rest), snd (split_dot rest)).
Proof.
  induction d as [|c d IH]; intros H; simpl.
  - destruct (split_dot rest); reflexivity.
  - simpl in H. apply andb_true_iff in H. destruct H as [Hc Hd].
    rewrite (digit_not_dot c Hc), (IH Hd). reflexivity.
Qed.

Lemma float_integer_nonneg d :
  forallb CharClass.digit d = true -> 0 <= float d.
Proof.
  intros H. unfold float. rewrite <- (app_nil_r d) at 1.
  rewrite (split_dot_digits d [] H). simpl. rewrite app_nil_r.
  pose proof (int_of_digits_nonneg d H) as Hn.
  unfold Qle. simpl. lia.
Qed.

Lemma float_decimal_nonneg d1 d2 :
  forallb CharClass.digit d1 = true -> forallb CharClass.digit d2 = true ->
  0 <= float (d1 ++ "."%char :: d2).
Proof.
  intros H1 H2. unfold float. rewrite (split_dot_digits d1 _ H1). simpl.
  rewrite app_nil_r.
  pose proof (int_of_digits_nonneg d1 H1) as Hn1.
  pose proof (int_of_digits_nonneg d2 H2) as Hn2.
  apply (Qle_trans _ (inject_Z (int_of_digits d1) + 0)).
  - rewrite Qplus_0_r. unfold Qle. simpl. lia.
  - apply Qplus_le_r. unfold Qle. simpl. lia.
Qed.

(** The first group of a literal percent is a run of digits, with or
    without a fraction. *)
Lemma pct_shape prev s prev' s' cs :
  matches pct_re prev s [] prev' s' cs ->
  exists d1 d2,
    forallb CharClass.digit d1 = true /\ forallb CharClass.digit d2 = true /\
    (cs = [(1%nat, d1)] \/ cs = [(1%nat, d1 ++ "."%char :: d2)]).
Proof.
  intros M. unfold pct_re in M.
  repeat match goal with
         | Hc : matches (Cat _ _) _ _ _ _ _ _ |- _ => inv Hc
         | Hc : matches (Grp _ _) _ _ _ _ _ _ |- _ => inv Hc
         | Hc : matches (Rep _ _ _) _ _ _ _ _ _ |- _ => inv Hc
         | Hc : matches (Opt _) _ _ _ _ _ _ |- _ => inv Hc
         | Hc : matches (chr _) _ _ _ _ _ _ |- _ => inv Hc
         end.
  - match goal with
    | |- exists d1 d2, _ /\ _ /\
           ([(_, firstn (length (?a ++ ?c :: ?b ++ ?r) - length ?r) _)] = _ \/ _) =>
        exists a, b; split; [assumption|]; split; [assumption|]; right;
        replace (a ++ c :: b ++ r) with ((a ++ c :: b) ++ r)
          by (rewrite <- app_assoc; reflexivity);
        rewrite firstn_taken
    end.
    match goal with
    | Hc : CharClass.only "." ?c = true |- _ =>
        apply Ascii.eqb_eq in Hc; subst c
    end.
    reflexivity.
  - match goal with
    | |- exists d1 d2, _ /\ _ /\
           ([(_, firstn (length (?a ++ ?r) - length ?r) _)] = _ \/ _) =>
        exists a, []; split; [assumption|]; split; [reflexivity|]; left;
        rewrite firstn_taken
    end.
    reflexivity.
Qed.

(** The groups of a match of the ratio pattern: digits, and what the
    pattern [l] of the second group matched. *)
Lemma ratio_groups l prev s prev' s' cs :
  matches
    (Cat Bnd
    (Cat (Grp 1 (Rep 1 (Some 5%nat) CharClass.digit))
    (Cat (Rep 0 None CharClass.space)
    (Cat (chr "/")
    (Cat (Rep 0 None CharClass.space)
    (Cat (Grp 2 l) Bnd))))))
    prev s [] prev' s' cs ->
  exists d p2 s2 p2' s2' cs2,
    forallb CharClass.digit d = true /\
    matches l p2 s2 [(1%nat, d)] p2' s2' cs2 /\
    cs = (2%nat, firstn (length s2 - length s2') s2) :: cs2.
Proof.
  intros M.
  repeat match goal with
         | Hc : matches (Cat _ _) _ _ _ _ _ _ |- _ => inv Hc
         | Hc : matches Bnd _ _ _ _ _ _ |- _ => inv Hc
         | Hc : matches (Grp _ _) _ _ _ _ _ _ |- _ => inv Hc
         | Hc : matches (Rep _ _ _) _ _ _ _ _ _ |- _ => inv Hc
         | Hc : matches (chr _) _ _ _ _ _ _ |- _ => inv Hc
         end.
  match goal with
  | Hm : matches l _ _ [(_, firstn (length (?a ++ ?r) - length ?r) _)] _ _ _
    |- _ =>
      rewrite firstn_taken in Hm; exists a
  end.
  eauto 10.
Qed.

Lemma ratio_captures s m :
  search ratio_re s = Some m ->
  forallb CharClass.digit (group m 1) = true /\
  (group m 2 = s2l "65535" \/ group m 2 = s2l "65536").
Proof.
  intros H. pose proof (ratio_denominator s m H) as Hden.
  split; [|exact Hden].
  apply search_from_sound in H. destruct H as (pre & prev' & s' & _ & H).
  apply match_at_sound in H. destruct H as (p1 & s1 & cs & M & ->).
  unfold ratio_re in M. apply ratio_groups in M.
  destruct M as (d & p2 & s2 & p2' & s2' & cs2 & Hd & M & ->).
  apply matches_alt in M.
  destruct M as [M|M]; apply matches_lit in M; destruct M as [_ ->];
    exact Hd.
Qed.

Lemma pct_captures s m :
  search pct_re s = Some m ->
  exists d1 d2,
    forallb CharClass.digit d1 = true /\ forallb CharClass.digit d2 = true /\
    (group m 1 = d1 \/ group m 1 = d1 ++ "."%char :: d2).
Proof.
  intros H.
  apply search_from_sound in H. destruct H as (pre & prev' & s' & _ & H).
  apply match_at_sound in H. destruct H as (p1 & s1 & cs & M & ->).
  apply pct_shape in M. destruct M as (d1 & d2 & H1 & H2 & [-> | ->]);
    exists d1, d2; simpl; auto.
Qed.

End CapturedNumbers.

(** X6. The percentage [_poll] reads from a text is never negative: the
    lower bound of the clamp [max(0.0, min(100.0, pct))] is never what
    decides the progress. *)
Theorem parsed_percentage_nonneg (text : str) (pct : Q) :
  extract_pct text = Ok (Some pct) ->
  0 <= pct /\ py_max 0 (py_min 100 pct) == py_min 100 pct.
Proof.
  intros H. rewrite extract_pct_spec in H. injection H as H.
  assert (Hp : 0 <= pct).
  { unfold spec_percent in H.
    destruct (search pct_re text) as [m|] eqn:E.
    - injection H as <-.
      destruct (pct_captures text m E) as (d1 & d2 & H1 & H2 & [-> | ->]).
      + apply float_integer_nonneg, H1.
      + apply float_decimal_nonneg; assumption.
    - destruct (search ratio_re text) as [m|] eqn:E'; [|discriminate].
      injection H as <-.
      destruct (ratio_captures text m E') as [Hd Hden].
      pose proof (float_integer_nonneg _ Hd) as Hn.
      assert (Hb : 0 < float (group m 2))
        by (destruct Hden as [-> | ->]; reflexivity).
      apply Qmult_le_0_compat; [|discriminate].
      apply Qle_shift_div_l; [assumption|].
      rewrite Qmult_0_l. assumption. }
  split; [assumption|].
  unfold py_max. destruct (Qlt_bool 0 (py_min 100 pct)) eqn:E; [reflexivity|].
  assert (Hm : 0 <= py_min 100 pct).
  { unfold py_min. destruct (Qlt_bool pct 100); [assumption | discriminate]. }
  apply Qle_antisym; [assumption|].
  apply Qnot_lt_le. intros Hlt. apply Qlt_bool_iff in Hlt. congruence.
Qed.

Lemma parsed_percentage_nonneg_witness :
  0 <= (12345 / 65535) * 100.
Proof.
  pose proof (parsed_percentage_nonneg
                (s2l "Progress indication: 12345/65535 done")
                (inject_Z 12345 / inject_Z 65535 * 100) eq_refl) as H.
  exact (proj1 H).
Defined.

(* ================================================================= *)
(** * More on truncation *)

Section TruncationEdges.

Local Arguments Ascii.eqb : simpl never.

Lemma ansi_at_not_esc c r : Ascii.eqb ESC c = false -> ansi_at (c :: r) = None.
Proof. intros H. destruct r; simpl; [reflexivity|]. rewrite H. reflexivity. Qed.

Lemma no_esc_cons c t :
  contains_char ESC (c :: t) = false ->
  Ascii.eqb ESC c = false /\ contains_char ESC t = false.
Proof. unfold contains_char. simpl. apply orb_false_iff. Qed.

Lemma no_esc_firstn n t :
  contains_char ESC t = false -> contains_char ESC (firstn n t) = false.
Proof.
  revert n. induction t as [|c t IH]; intros n H.
  - now rewrite firstn_nil.
  - destruct n; [reflexivity|]. apply no_esc_cons in H. destruct H as [Hc Ht].
    unfold contains_char in *. simpl. rewrite Hc. simpl. apply IH, Ht.
Qed.

(** A text without an escape character reads as its characters. *)
Lemma tokens_plain_app t y :
  contains_char ESC t = false ->
  tokens (t ++ y) = map (fun c => [c]) t ++ tokens y.
Proof.
  induction t as [|c t IH]; intros H; [reflexivity|].
  apply no_esc_cons in H. destruct H as [Hc Ht].
  simpl. rewrite tokens_chr by (apply ansi_at_not_esc, Hc).
  now rewrite IH.
Qed.

Lemma visible_tokens_app a b :
  visible_tokens (a ++ b) = (visible_tokens a + visible_tokens b)%nat.
Proof. unfold visible_tokens. now rewrite filter_app, length_app. Qed.

Lemma visible_tokens_plain t :
  visible_tokens (map (fun c => [c]) t) = length t.
Proof.
  unfold visible_tokens. induction t as [|c t IH]; [reflexivity|].
  simpl. rewrite is_seq_single. simpl. now rewrite IH.
Qed.

Lemma vis_loop_plain (width : Z) (s : str) :
  forall fuel visible result,
    contains_char ESC s = false -> (length s < fuel)%nat ->
    vis_loop fuel s width visible result
    = Some (result ++ firstn (Z.to_nat (width - visible)) s).
Proof.
  induction s as [|c s IH]; intros fuel visible result He L.
  - destruct fuel; [simpl in L; lia|]. simpl.
    now rewrite firstn_nil, app_nil_r.
  - destruct fuel as [|fuel]; [simpl in L; lia|].
    apply no_esc_cons in He. destruct He as [Hc Hs].
    rewrite vis_loop_step, (ansi_at_not_esc c s Hc).
    destruct (visible >=? width)%Z eqn:Hw.
    + rewrite Z.geb_leb in Hw. apply Z.leb_le in Hw.
      replace (Z.to_nat (width - visible)) with 0%nat by lia.
      simpl. now rewrite app_nil_r.
    + rewrite Z.geb_leb in Hw. apply Z.leb_gt in Hw.
      rewrite IH by (auto; simpl in L; lia).
      replace (Z.to_nat (width - visible))
        with (S (Z.to_nat (width - (visible + 1)))) by lia.
      simpl. now rewrite <- app_assoc.
Qed.

(** The loop takes the whole string when its visible characters fit. *)
Lemma vis_loop_all (width : Z) (s : str) :
  forall fuel visible result,
    (length s < fuel)%nat ->
    (Z.of_nat (visible_tokens (tokens s)) <= width - visible)%Z ->
    vis_loop fuel s width visible result = Some (result ++ s).
Proof.
  induction s as [|m r E IH|c s E IH] using token_ind;
    intros fuel visible result L Hv.
  - destruct fuel; [simpl in L; lia|]. simpl. now rewrite app_nil_r.
  - pose proof (ansi_at_shorter _ _ _ E) as L'.
    destruct fuel as [|fuel]; [lia|].
    rewrite (tokens_seq m r E) in Hv.
    unfold visible_tokens in Hv. cbn [filter] in Hv.
    rewrite (is_seq_match m r E) in Hv. cbn [negb] in Hv.
    destruct (ansi_at_app _ _ _ E) as [_ [m' Hm]].
    assert (Lr : (length r < fuel)%nat).
    { rewrite Hm in L, L'. simpl in L, L'. lia. }
    assert (Hstep : vis_loop (S fuel) (m ++ r) width visible result
                    = vis_loop fuel r width visible (result ++ m)).
    { revert E. rewrite Hm. cbn [app]. intros E.
      rewrite vis_loop_step, E. reflexivity. }
    rewrite Hstep, (IH fuel visible (result ++ m) Lr Hv).
    now rewrite <- app_assoc.
  - destruct fuel as [|fuel]; [simpl in L; lia|].
    rewrite (tokens_chr c s E) in Hv.
    unfold visible_tokens in Hv. cbn [filter] in Hv.
    rewrite is_seq_single in Hv. cbn [negb length] in Hv.
    rewrite vis_loop_step, E.
    destruct (visible >=? width)%Z eqn:Hw.
    + rewrite Z.geb_leb in Hw. apply Z.leb_le in Hw. lia.
    + rewrite IH; [now rewrite <- app_assoc | simpl in L; lia|].
      unfold visible_tokens. lia.
Qed.

(** The loop stops short of the end only with the width used up. *)
Lemma vis_loop_tight (width : Z) (s : str) :
  forall fuel visible result,
    (length s < fuel)%nat -> (visible <= width)%Z ->
    exists k,
      vis_loop fuel s width visible result
      = Some (result ++ concat (firstn k (tokens s))) /\
      (concat (firstn k (tokens s)) = s \/
       (visible + Z.of_nat (visible_tokens (firstn k (tokens s))) = width)%Z).
Proof.
  induction s as [|m r E IH|c s E IH] using token_ind;
    intros fuel visible result L Hv.
  - destruct fuel; [simpl in L; lia|].
    exists 0%nat. simpl. rewrite app_nil_r. auto.
  - pose proof (ansi_at_shorter _ _ _ E) as L'.
    destruct fuel as [|fuel]; [lia|].
    pose proof (is_seq_match m r E) as Hseq.
    pose proof (tokens_seq m r E) as Htok.
    destruct (ansi_at_app _ _ _ E) as [_ [m' Hm]].
    assert (Lr : (length r < fuel)%nat).
    { rewrite Hm in L, L'. simpl in L, L'. lia. }
    assert (Hstep : vis_loop (S fuel) (m ++ r) width visible result
                    = vis_loop fuel r width visible (result ++ m)).
    { revert E. rewrite Hm. cbn [app]. intros E.
      rewrite vis_loop_step, E. reflexivity. }
    destruct (IH fuel visible (result ++ m) Lr Hv) as (k & Hk & Hc).
    exists (S k). rewrite Hstep, Hk, Htok. cbn [firstn concat].
    rewrite <- app_assoc. split; [reflexivity|].
    destruct Hc as [Hc|Hc]; [left; now rewrite Hc | right].
    unfold visible_tokens in *. cbn [filter]. rewrite Hseq. exact Hc.
  - destruct fuel as [|fuel]; [simpl in L; lia|].
    rewrite vis_loop_step, E, (tokens_chr c s E).
    destruct (visible >=? width)%Z eqn:Hw.
    + rewrite Z.geb_leb in Hw. apply Z.leb_le in Hw.
      exists 0%nat. simpl. rewrite app_nil_r. split; [reflexivity|].
      right. lia.
    + rewrite Z.geb_leb in Hw. apply Z.leb_gt in Hw.
      destruct (IH fuel (visible + 1)%Z (result ++ [c])) as (k & Hk & Hc);
        [simpl in L; lia | lia |].
      exists (S k). rewrite Hk. cbn [firstn concat].
      rewrite <- app_assoc. split; [reflexivity|].
      destruct Hc as [Hc|Hc]; [left; simpl; now rewrite Hc | right].
      unfold visible_tokens in *. cbn [filter]. rewrite is_seq_single.
      cbn [negb length]. lia.
Qed.

End TruncationEdges.

(** X7. On a text without an escape character [_vis_trunc] is the plain
    cut to the first [width] characters (none for a width of zero or
    less), with no reset sequence added. *)
Theorem vis_trunc_plain (s : str) (width : Z) :
  contains_char ESC s = false ->
  _vis_trunc s width = Some (firstn (Z.to_nat width) s).
Proof.
  intros H. unfold _vis_trunc.
  rewrite (vis_loop_plain width s (S (length s)) 0%Z [] H)
    by apply Nat.lt_succ_diag_r.
  rewrite Z.sub_0_r. cbn [app].
  now rewrite (no_esc_firstn _ s H).
Qed.

Lemma vis_trunc_plain_witness :
  _vis_trunc (s2l "  Interval: 5s   Next poll in 3s") 12
  = Some (s2l "  Interval: ").
Proof.
  exact (vis_trunc_plain (s2l "  Interval: 5s   Next poll in 3s") 12 eq_refl).
Defined.

(** X8. A string whose visible length is at most the width is not cut:
    the output is the string itself, followed by one reset sequence when
    the string holds an escape character. *)
Theorem vis_trunc_keeps_what_fits (s : str) (width : Z) :
  (visible_len s <= width)%Z ->
  _vis_trunc s width
  = Some (if contains_char ESC s then s ++ RST else s).
Proof.
  intros H. unfold _vis_trunc, visible_len in *.
  rewrite (vis_loop_all width s (S (length s)) 0%Z [])
    by (try apply Nat.lt_succ_diag_r; lia).
  reflexivity.
Qed.

Lemma vis_trunc_keeps_what_fits_witness :
  _vis_trunc (ESC :: s2l "[32mdone" ++ RST) 4
  = Some (ESC :: s2l "[32mdone" ++ RST ++ RST).
Proof.
  exact (vis_trunc_keeps_what_fits (ESC :: s2l "[32mdone" ++ RST) 4
           ltac:(discriminate)).
Defined.

(** X9. Truncation wastes no column: for a width of zero or more, either
    the whole string is kept (with or without a reset sequence after it)
    or the output is exactly [width] visible characters wide. *)
Theorem vis_trunc_is_tight (s : str) (width : Z) :
  (0 <= width)%Z ->
  exists out,
    _vis_trunc s width = Some out /\
    (out = s \/ out = s ++ RST \/ visible_len out = width).
Proof.
  intros Hw.
  destruct (vis_loop_tight width s (S (length s)) 0%Z []
              (Nat.lt_succ_diag_r _) Hw) as (k & Hk & Hc).
  cbn [app] in Hk. unfold _vis_trunc. rewrite Hk.
  set (res := concat (firstn k (tokens s))) in *.
  eexists. split; [reflexivity|].
  destruct Hc as [Hc|Hc].
  - rewrite Hc. destruct (contains_char ESC s); auto.
  - right. right. unfold visible_len.
    destruct (contains_char ESC res).
    + unfold res. rewrite tokens_prefix_inert by reflexivity.
      rewrite tokens_RST, visible_tokens_app.
      change (visible_tokens [RST]) with 0%nat. lia.
    + rewrite <- (app_nil_r res). unfold res.
      rewrite tokens_prefix_inert by exact I.
      rewrite tokens_nil, app_nil_r. lia.
Qed.

Lemma vis_trunc_is_tight_witness :
  exists out,
    _vis_trunc (ESC :: s2l "[32mHello world" ++ RST) 5 = Some out /\
    (out = ESC :: s2l "[32mHello world" ++ RST \/
     out = (ESC :: s2l "[32mHello world" ++ RST) ++ RST \/
     visible_len out = 5%Z).
Proof.
  exact (vis_trunc_is_tight (ESC :: s2l "[32mHello world" ++ RST) 5
           ltac:(discriminate)).
Defined.

Lemma csi_end_params code rest :
  forallb CharClass.param code = true ->
  csi_end (code ++ "m"%char :: rest) = Some (code ++ s2l "m", rest).
Proof.
  induction code as [|c code IH]; intros H; [reflexivity|].
  simpl in H. apply andb_true_iff in H. destruct H as [Hc Hr].
  simpl. rewrite Hc, (IH Hr). reflexivity.
Qed.

(** X10. Colouring does not change the width of a text: for a colour
    code made of digits and semicolons and a text without an escape
    character, [_a] on a terminal gives a string of the same visible
    length as the text, which [_vis_trunc] leaves whole at any width that
    holds the text; off a terminal [_a] gives the text itself. *)
Theorem colouring_keeps_width (code t : str) :
  forallb CharClass.param code = true ->
  contains_char ESC t = false ->
  visible_len (_a true code t) = Z.of_nat (length t) /\
  (forall width, (Z.of_nat (length t) <= width)%Z ->
     _vis_trunc (_a true code t) width = Some (_a true code t ++ RST)) /\
  _a false code t = t.
Proof.
  intros Hc Ht.
  assert (Htok : tokens (_a true code t)
                 = (ESC :: s2l "[" ++ code ++ s2l "m")
                     :: map (fun c => [c]) t ++ [RST]).
  { unfold _a.
    replace (ESC :: s2l "[" ++ code ++ s2l "m" ++ t ++ RST)
      with ((ESC :: s2l "[" ++ code ++ s2l "m") ++ t ++ RST)
      by (simpl; now rewrite <- !app_assoc).
    rewrite tokens_seq.
    - now rewrite tokens_plain_app, tokens_RST.
    - change (ansi_at (ESC :: "["%char :: (code ++ s2l "m") ++ t ++ RST)
              = Some (ESC :: "["%char :: code ++ s2l "m", t ++ RST)).
      cbn [ansi_at]. rewrite !Ascii.eqb_refl. cbn [andb].
      rewrite <- app_assoc.
      change (s2l "m" ++ t ++ RST) with ("m"%char :: t ++ RST).
      now rewrite csi_end_params. }
  assert (Hvis : visible_len (_a true code t) = Z.of_nat (length t)).
  { unfold visible_len. rewrite Htok.
    change (?x :: ?l ++ [RST]) with ([x] ++ l ++ [RST]).
    rewrite !visible_tokens_app, visible_tokens_plain.
    assert (Hs : is_seq (ESC :: s2l "[" ++ code ++ s2l "m") = true).
    { rewrite is_seq_ansi.
      change (ESC :: s2l "[" ++ code ++ s2l "m")
        with (ESC :: "["%char :: code ++ "m"%char :: []).
      cbn [ansi_at]. rewrite !Ascii.eqb_refl. cbn [andb].
      now rewrite csi_end_params. }
    unfold visible_tokens at 1. cbn [filter]. rewrite Hs.
    change (visible_tokens [RST]) with 0%nat. simpl. lia. }
  split; [exact Hvis|]. split; [|reflexivity].
  intros width Hw. unfold _vis_trunc.
  rewrite (vis_loop_all width (_a true code t) (S (length (_a true code t)))
             0%Z [])
    by (try apply Nat.lt_succ_diag_r; unfold visible_len in Hvis; lia).
  reflexivity.
Qed.

Lemma colouring_keeps_width_witness :
  visible_len (bred true (s2l "FAILED")) = 6%Z.
Proof.
  exact (proj1 (colouring_keeps_width (s2l "1;31") (s2l "FAILED")
                  eq_refl eq_refl)).
Defined.

(* ================================================================= *)
(** * The main loop *)

Lemma poll_each_shape (wf : nat -> world) (states : list DevState) :
  forall i,
    let '(e, states', inv, lg) := poll_each wf i states in
    Forall2 (fun s s' => s' = s \/ exists w, s' = after (_poll w s))
            states states' /\
    (inv <> [] -> exists s, In s states /\ terminal (status s) = false).
Proof.
  induction states as [|s rest IH]; intros i; simpl.
  - split; [constructor | intros H; contradiction].
  - assert (Hinv : invoked (_poll (wf i) s) <> [] ->
                   terminal (status s) = false).
    { intros H. destruct (terminal (status s)) eqn:Ht; [|reflexivity].
      rewrite (poll_on_terminal _ s Ht) in H. contradiction. }
    destruct (raised (_poll (wf i) s)).
    + split.
      * constructor; [right; eauto|].
        clear. induction rest; constructor; auto.
      * intros H. exists s. split; [left; reflexivity | auto].
    + specialize (IH (S i)).
      destruct (poll_each wf (S i) rest) as [[[e rest'] inv] lg].
      destruct IH as [IH1 IH2]. split.
      * constructor; [right; eauto | assumption].
      * intros H. destruct (invoked (_poll (wf i) s)) eqn:E.
        -- destruct (IH2 H) as (s0 & Hin & Ht). exists s0. auto.
        -- exists s. split; [left; reflexivity | apply Hinv; discriminate].
Qed.

(** X11. A pass of the main loop runs commands only when a poll is due
    (not paused, and the interval elapsed since the last poll) and some
    device is not yet [done] or [failed]; on a quit key, while paused,
    before the interval has elapsed, or with every device terminal it
    runs none. *)
Theorem tick_runs_commands_only_when_due
    (pending : option str) (now_ : Q) (wf : nat -> world)
    (ss : session) (states : list DevState) :
  t_invoked (tick pending now_ wf ss states) <> [] ->
  exists ss1,
    match pending with Some ch => on_key ch ss | None => Some ss end = Some ss1 /\
    paused ss1 = false /\
    inject_Z (interval ss1) <= now_ - last_poll ss1 /\
    exists s, In s states /\ terminal (status s) = false.
Proof.
  unfold tick.
  destruct (match pending with Some ch => on_key ch ss | None => Some ss end)
    as [ss1|]; [|intros H; contradiction].
  destruct (poll_due now_ ss1) eqn:Hd; [|intros H; contradiction].
  pose proof (poll_each_shape wf states 0%nat) as Hs.
  destruct (poll_each wf 0 states) as [[[e states1] inv] lg].
  simpl. intros H. exists ss1. unfold poll_due in Hd.
  apply andb_true_iff in Hd. destruct Hd as [Hp Hq].
  apply negb_true_iff in Hp. apply Qle_bool_iff in Hq.
  repeat split; auto. apply (proj2 Hs H).
Qed.

Lemma tick_runs_commands_only_when_due_witness :
  exists ss1,
    Some session_init = Some ss1 /\ paused ss1 = false /\
    inject_Z (interval ss1) <= 7 - last_poll ss1 /\
    exists s, In s [sda] /\ terminal (status s) = false.
Proof.
  apply (tick_runs_commands_only_when_due None 7
           (fun _ => world_of (Completed [] []) (Completed [] []) 7)
           session_init [sda]).
  discriminate.
Defined.

(** What identifies a device. *)
Lemma poll_identity (w : world) (st : DevState) :
  (path (after (_poll w st)), sg_path (after (_poll w st)),
   slot (after (_poll w st)), model (after (_poll w st)),
   serial (after (_poll w st)), start (after (_poll w st)))
  = (path st, sg_path st, slot st, model st, serial st, start st).
Proof.
  destruct (poll_event_cases w st) as [[Ha _]|(_ & ev & Ha & _ & _)];
    rewrite Ha; [reflexivity|].
  destruct ev as [|[p|]| |]; reflexivity.
Qed.

(** X12. A pass of the main loop never adds, drops or reorders devices,
    and never changes what identifies one (path, sg path, slot, model,
    serial) or its start time. *)
Theorem tick_keeps_the_devices
    (pending : option str) (now_ : Q) (wf : nat -> world)
    (ss : session) (states : list DevState) :
  map (fun s => (path s, sg_path s, slot s, model s, serial s, start s))
      (t_states (tick pending now_ wf ss states))
  = map (fun s => (path s, sg_path s, slot s, model s, serial s, start s))
        states.
Proof.
  unfold tick.
  destruct (match pending with Some ch => on_key ch ss | None => Some ss end)
    as [ss1|]; [|reflexivity].
  destruct (poll_due now_ ss1); [|reflexivity].
  pose proof (poll_each_shape wf states 0%nat) as Hs.
  destruct (poll_each wf 0 states) as [[[e states1] inv] lg].
  simpl. destruct Hs as [Hs _].
  induction Hs as [|s s' l l' H Hl IH]; [reflexivity|].
  simpl. rewrite IH. f_equal.
  destruct H as [->|[w ->]]; [reflexivity | apply poll_identity].
Qed.

Lemma started_this_poll_is_formatting (w : world) (st : DevState) :
  ever_started st = false ->
  ever_started (after (_poll w st)) = true ->
  terminal (status (after (_poll w st))) = false.
Proof.
  intros Hn.
  destruct (poll_event_cases w st) as [[Ha _]|(_ & ev & Ha & _ & Hd)];
    rewrite Ha; [congruence|].
  destruct ev as [|[p|]| |]; simpl; congruence.
Qed.

Lemma not_all_finished (states : list DevState) :
  Forall (fun s => ever_started s = true -> terminal (status s) = false)
         states ->
  all_finished states = false.
Proof.
  intros H. unfold all_finished.
  destruct (existsb ever_started states) eqn:E; [|apply andb_false_r].
  apply existsb_exists in E. destruct E as (s & Hin & Hs).
  rewrite Forall_forall in H. specialize (H s Hin Hs).
  rewrite andb_true_r.
  destruct (forallb (fun s => terminal (status s)) states) eqn:F;
    [|reflexivity].
  rewrite forallb_forall in F. specialize (F s Hin). congruence.
Qed.

(** X13. A pass of the main loop that begins with no device started
    never ends on the completion screen, whatever the polls return: a
    device that starts in this pass is [formatting], and devices that
    fail without ever having started do not count as a finished
    session. *)
Theorem no_completion_before_a_start
    (pending : option str) (now_ : Q) (wf : nat -> world)
    (ss : session) (states : list DevState) :
  (forall s, In s states -> ever_started s = false) ->
  t_end (tick pending now_ wf ss states) <> Finished.
Proof.
  intros Hn. unfold tick.
  assert (H0 : all_finished states = false).
  { apply not_all_finished. apply Forall_forall.
    intros s Hin Hs. rewrite (Hn s Hin) in Hs. discriminate. }
  destruct (match pending with Some ch => on_key ch ss | None => Some ss end)
    as [ss1|]; [|discriminate].
  destruct (poll_due now_ ss1); [|simpl; rewrite H0; discriminate].
  pose proof (poll_each_shape wf states 0%nat) as Hs.
  destruct (poll_each wf 0 states) as [[[e states1] inv] lg].
  simpl. destruct e; [discriminate|].
  rewrite not_all_finished; [discriminate|].
  destruct Hs as [Hs _]. clear H0.
  induction Hs as [|s s' l l' H Hl IH]; constructor.
  - assert (Hs0 : ever_started s = false) by (apply Hn; left; reflexivity).
    destruct H as [->|[w ->]].
    + congruence.
    + apply started_this_poll_is_formatting, Hs0.
  - apply IH. intros x Hx. apply Hn. right. assumption.
Qed.

Lemma no_completion_before_a_start_witness :
  t_end (tick None 7
           (fun _ => world_of (Completed (s2l "medium error") []) (Completed [] []) 7)
           session_init [sda; sda])
  <> Finished.
Proof.
  apply (no_completion_before_a_start None 7
           (fun _ => world_of (Completed (s2l "medium error") []) (Completed [] []) 7)
           session_init [sda; sda]).
  intros s [<-|[<-|[]]]; reflexivity.
Defined.

(* ================================================================= *)
(** * Whole seconds *)

Lemma int_of_float_inject (n : Z) : int_of_float (inject_Z n) = n.
Proof. unfold int_of_float. simpl. apply Z.quot_1_r. Qed.

(** [int] is monotone. *)
Lemma int_of_float_le (x y : Q) : x <= y -> (int_of_float x <= int_of_float y)%Z.
Proof.
  unfold Qle, int_of_float. intros H.
  rewrite <- (Z.quot_mul_cancel_r (Qnum x) (Zpos (Qden x)) (Zpos (Qden y)))
    by discriminate.
  rewrite <- (Z.quot_mul_cancel_r (Qnum y) (Zpos (Qden y)) (Zpos (Qden x)))
    by discriminate.
  rewrite (Z.mul_comm (Zpos (Qden y)) (Zpos (Qden x))).
  apply Z.quot_le_mono; [lia | assumption].
Qed.

(** On a non-negative number [int] rounds down. *)
Lemma int_of_float_below (x : Q) : 0 <= x -> inject_Z (int_of_float x) <= x.
Proof.
  unfold Qle, int_of_float. simpl. rewrite !Z.mul_1_r. intros H.
  rewrite Z.quot_div_nonneg by lia.
  rewrite Z.mul_comm. apply Z.mul_div_le. lia.
Qed.

(** X14. The countdown of the status line agrees with the loop: for an
    interval of at least one second, "Next poll in 0s" is shown exactly
    when the interval has elapsed since the last poll, that is when an
    unpaused loop polls; and as long as the clock has not gone back
    behind the last poll the countdown is between 0 and the interval. *)
Theorem countdown_agrees_with_polling (now_ : Q) (s : session) :
  (1 <= interval s)%Z ->
  (next_in now_ s = 0%Z <-> inject_Z (interval s) <= now_ - last_poll s) /\
  (paused s = false -> (next_in now_ s = 0%Z <-> poll_due now_ s = true)) /\
  (last_poll s <= now_ -> (0 <= next_in now_ s <= interval s)%Z).
Proof.
  intros Hi.
  assert (H1 : next_in now_ s = 0%Z <->
               inject_Z (interval s) <= now_ - last_poll s).
  { unfold next_in. set (x := now_ - last_poll s). split; intros H.
    - assert (Hn : (interval s <= int_of_float x)%Z) by lia.
      assert (Hx : 0 <= x).
      { apply Qnot_lt_le. intros Hneg.
        pose proof (int_of_float_nonpos x (Qlt_le_weak _ _ Hneg)). lia. }
      apply (Qle_trans _ (inject_Z (int_of_float x)));
        [|apply int_of_float_below, Hx].
      unfold Qle. simpl. lia.
    - apply int_of_float_le in H. rewrite int_of_float_inject in H. lia. }
  split; [exact H1|]. split.
  - intros Hp. rewrite H1. unfold poll_due. rewrite Hp. simpl.
    symmetry. apply Qle_bool_iff.
  - intros Hl. unfold next_in.
    assert (Hx : 0 <= now_ - last_poll s) by lra.
    apply int_of_float_le in Hx. change (int_of_float 0) with 0%Z in Hx. lia.
Qed.

Lemma countdown_agrees_with_polling_witness :
  next_in 12 session_init = 0%Z <-> poll_due 12 session_init = true.
Proof.
  exact (proj1 (proj2 (countdown_agrees_with_polling 12 session_init
                         ltac:(discriminate))) eq_refl).
Defined.

(* ================================================================= *)
(** * The rows of the screen *)

Lemma str_mul_single (c : ascii) (n : Z) :
  str_mul [c] n = repeat c (Z.to_nat n).
Proof.
  unfold str_mul. induction (Z.to_nat n) as [|k IH]; [reflexivity|].
  simpl. now rewrite IH.
Qed.

Lemma bar_fraction_range (p : Q) (bw : Z) :
  0 <= p <= 100 -> (0 <= bw)%Z ->
  0 <= p * inject_Z bw / 100 <= inject_Z bw.
Proof.
  intros [Hp0 Hp1] Hb.
  assert (Hbq : 0 <= inject_Z bw) by (unfold Qle; simpl; lia).
  split.
  - apply Qle_shift_div_l; [reflexivity|]. rewrite Qmult_0_l.
    apply Qmult_le_0_compat; assumption.
  - apply Qle_shift_div_r; [reflexivity|].
    rewrite (Qmult_comm (inject_Z bw) 100).
    apply Qmult_le_compat_r; assumption.
Qed.

(** X15. The progress bar of a [formatting] row: for a progress within
    [0, 100] the bar is between 8 and 48 characters wide whatever the
    terminal width, it is made of [filled] '#' followed by '.' up to its
    width, with [filled] between 0 and the width, and it is full exactly
    when the progress is 100. *)
Theorem bar_has_its_width (cols fixed_visible : Z) (p : Q) :
  0 <= p <= 100 ->
  let bw := bar_width cols fixed_visible in
  let filled := bar_filled p bw in
  (8 <= bw <= 48)%Z /\
  (0 <= filled <= bw)%Z /\
  bar p bw = repeat "#"%char (Z.to_nat filled)
             ++ repeat "."%char (Z.to_nat (bw - filled)) /\
  Z.of_nat (length (bar p bw)) = bw /\
  (filled = bw <-> p == 100).
Proof.
  intros Hp bw filled.
  assert (Hbw : (8 <= bw <= 48)%Z) by (unfold bw, bar_width; lia).
  assert (Hb0 : (0 <= bw)%Z) by lia.
  destruct (bar_fraction_range p bw Hp Hb0) as [Hq0 Hq1].
  assert (Hf : (0 <= filled <= bw)%Z).
  { unfold filled, bar_filled. split.
    - apply int_of_float_le in Hq0. exact Hq0.
    - apply int_of_float_le in Hq1. now rewrite int_of_float_inject in Hq1. }
  assert (Hbar : bar p bw = repeat "#"%char (Z.to_nat filled)
                            ++ repeat "."%char (Z.to_nat (bw - filled))).
  { unfold bar. fold filled.
    change (s2l "#") with ["#"%char]. change (s2l ".") with ["."%char].
    now rewrite !str_mul_single. }
  split; [exact Hbw|]. split; [exact Hf|]. split; [exact Hbar|]. split.
  - rewrite Hbar, length_app, !repeat_length. lia.
  - assert (Hbq : 0 < inject_Z bw) by (unfold Qlt; simpl; lia).
    split.
    + intros E.
      pose proof (int_of_float_below _ Hq0) as Hb.
      fold (bar_filled p bw) in Hb. fold filled in Hb. rewrite E in Hb.
      apply Qle_antisym; [apply Hp|].
      apply (Qmult_lt_0_le_reg_r _ _ (inject_Z bw) Hbq).
      assert (Hm : p * inject_Z bw / 100 * 100 == p * inject_Z bw) by field.
      rewrite <- Hm.
      rewrite (Qmult_comm 100 (inject_Z bw)).
      apply Qmult_le_compat_r; [exact Hb | discriminate].
    + intros E. apply Z.le_antisymm; [apply Hf|].
      unfold filled, bar_filled.
      rewrite <- (int_of_float_inject bw) at 1.
      apply int_of_float_le. rewrite E. 
      assert (Hm : 100 * inject_Z bw / 100 == inject_Z bw) by field.
      rewrite Hm. apply Qle_refl.
Qed.

Lemma bar_has_its_width_witness :
  (8 <= bar_width 80 60 <= 48)%Z /\
  (0 <= bar_filled (75 # 2) (bar_width 80 60) <= bar_width 80 60)%Z.
Proof.
  assert (Hp : 0 <= 75 # 2 <= 100) by (split; discriminate).
  pose proof (bar_has_its_width 80 60 (75 # 2) Hp) as H.
  cbv zeta in H. destruct H as (H1 & H2 & _).
  split; [exact H1 | exact H2].
Defined.

(** At 37.5 percent, a bar of 18 characters shows 6 filled ones. *)
Lemma bar_example :
  bar (75 # 2) (bar_width 80 60) = s2l "######............".
Proof. vm_compute. reflexivity. Qed.

Lemma count_status_cons (x : status_t) (s : DevState) (l : list DevState) :
  count_status x (s :: l)
  = ((if status_t_eq_dec (status s) x then 1 else 0) + count_status x l)%Z.
Proof.
  unfold count_status. simpl.
  destruct (status_t_eq_dec (status s) x); simpl length; lia.
Qed.

Lemma count_status_nonneg x l : (0 <= count_status x l)%Z.
Proof. unfold count_status. lia. Qed.

Lemma tallies_sum (states : list DevState) :
  (count_status done states + count_status formatting states
   + count_status waiting states + count_status failed states
   = Z.of_nat (length states))%Z.
Proof.
  induction states as [|s l IH]; [reflexivity|].
  rewrite !count_status_cons.
  change (length (s :: l)) with (S (length l)).
  destruct (status s);
    repeat match goal with
           | |- context [status_t_eq_dec ?a ?b] =>
               destruct (status_t_eq_dec a b); try discriminate; try congruence
           end;
    lia.
Qed.

(** X16. The tallies of the screen leave no device out: the numbers of
    done, formatting, waiting and failed devices add up to the number of
    devices; and the tally line reads "..." exactly when there is no
    device. *)
Theorem tallies_cover_the_devices (states : list DevState) :
  (count_status done states + count_status formatting states
   + count_status waiting states + count_status failed states
   = Z.of_nat (length states))%Z /\
  (tally_line states = s2l "  ..." <-> states = []).
Proof.
  split; [apply tallies_sum|]. split.
  - intros H. destruct states as [|s l]; [reflexivity|]. exfalso.
    pose proof (tallies_sum (s :: l)) as Hs.
    pose proof (count_status_nonneg done (s :: l)).
    pose proof (count_status_nonneg formatting (s :: l)).
    pose proof (count_status_nonneg waiting (s :: l)).
    pose proof (count_status_nonneg failed (s :: l)).
    change (length (s :: l)) with (S (length l)) in Hs.
    assert (Hj : exists tl, join (s2l "  |  ") (tally_parts (s :: l))
                            = ESC :: tl).
    { unfold tally_parts.
      destruct (Z.eqb_spec (count_status done (s :: l)) 0);
        destruct (Z.eqb_spec (count_status formatting (s :: l)) 0);
        destruct (Z.eqb_spec (count_status waiting (s :: l)) 0);
        destruct (Z.eqb_spec (count_status failed (s :: l)) 0);
        cbn [negb app join]; try lia; eexists; reflexivity. }
    destruct Hj as [tl Hj]. unfold tally_line in H. rewrite Hj in H.
    discriminate H.
  - intros ->. reflexivity.
Qed.

(* ================================================================= *)
(** * Discovering and picking devices *)

Lemma str_eqb_eq (a b : str) : str_eqb a b = true <-> a = b.
Proof.
  unfold str_eqb. destruct (list_eq_dec ascii_dec a b); split; congruence.
Qed.

Lemma existsb_str_eqb (x : str) (l : list str) :
  existsb (str_eqb x) l = true <-> In x l.
Proof.
  rewrite existsb_exists. split.
  - intros (y & Hin & Hy). apply str_eqb_eq in Hy. now subst.
  - intros Hin. exists x. split; [assumption | now apply str_eqb_eq].
Qed.

Lemma discover_loop_spec (fs : filesystem) :
  forall ports seen devices,
    (forall x, In x seen <-> In x (map Device.path devices)) ->
    NoDup (map Device.path devices) ->
    let r := discover_loop fs ports seen devices in
    NoDup (map Device.path r) /\
    (forall d, In d r ->
       In d devices \/
       (In (Device.port d) ports /\
        is_block_device fs (Device.port d) = true /\
        d = Device.init (resolve fs (Device.port d)) (Device.port d))) /\
    (forall d, In d devices -> In d r) /\
    (forall p, In p ports -> is_block_device fs p = true ->
               In (resolve fs p) (map Device.path r)).
Proof.
  induction ports as [|p rest IH]; intros seen devices Hseen Hnd; simpl.
  - repeat split; auto. intros p [].
  - destruct (is_block_device fs p) eqn:Hb.
    + destruct (existsb (str_eqb (resolve fs p)) seen) eqn:He.
      * destruct (IH seen devices Hseen Hnd) as (H1 & H2 & H3 & H4).
        split; [exact H1|]. split; [|split; [exact H3|]].
        -- intros d Hd. destruct (H2 d Hd) as [Hin|(Hp & Hbd & Hi)]; auto.
        -- intros q [<-|Hq] Hbq; [|auto].
           apply existsb_str_eqb, Hseen in He.
           apply in_map_iff in He. destruct He as (d & Hpd & Hd).
           apply in_map_iff. exists d. auto.
      * assert (Hnew : ~ In (resolve fs p) (map Device.path devices)).
        { intros Hin. apply Hseen, existsb_str_eqb in Hin. congruence. }
        destruct (IH (resolve fs p :: seen)
                     (devices ++ [Device.init (resolve fs p) p]))
          as (H1 & H2 & H3 & H4).
        { intros x. rewrite map_app, in_app_iff. simpl.
          rewrite (Hseen x). tauto. }
        { rewrite map_app. simpl.
          apply NoDup_app; [assumption | repeat constructor; intros [] |].
          intros x Hx [<-|[]]. contradiction. }
        split; [exact H1|]. split; [|split].
        -- intros d Hd. destruct (H2 d Hd) as [Hin|(Hp & Hbd & Hi)].
           ++ apply in_app_iff in Hin.
              destruct Hin as [Hin|[<-|[]]];
                [left; assumption | right; simpl; auto].
           ++ right. auto.
        -- intros d Hd. apply H3, in_app_iff. auto.
        -- intros q [<-|Hq] Hbq; [|auto].
           apply in_map_iff. exists (Device.init (resolve fs p) p).
           split; [reflexivity|]. apply H3, in_app_iff. right. left.
           reflexivity.
    + destruct (IH seen devices Hseen Hnd) as (H1 & H2 & H3 & H4).
      split; [exact H1|]. split; [|split; [exact H3|]].
      * intros d Hd. destruct (H2 d Hd) as [Hin|(Hp & Hbd & Hi)]; auto.
      * intros q [<-|Hq] Hbq; [congruence | auto].
Qed.

Lemma discover_ports_spec (fs : filesystem) (ports : list str) :
  NoDup (map Device.path (discover_loop fs ports [] [])) /\
  (forall d, In d (discover_loop fs ports [] []) ->
     In (Device.port d) ports /\
     is_block_device fs (Device.port d) = true /\
     Device.path d = resolve fs (Device.port d) /\
     Device.model d = [] /\ Device.serial d = []) /\
  (forall p, In p ports -> is_block_device fs p = true ->
             In (resolve fs p) (map Device.path (discover_loop fs ports [] []))).
Proof.
  destruct (discover_loop_spec fs ports [] []) as (H1 & H2 & _ & H4).
  { intros x. simpl. tauto. }
  { constructor. }
  split; [exact H1|]. split; [|exact H4].
  intros d Hd. destruct (H2 d Hd) as [Hin|(Hp & Hb & Hi)]; [destruct Hin|].
  rewrite Hi. simpl. auto.
Qed.

(** X17. [discover] lists each connected disk once: no two devices it
    returns have the same resolved path; each device comes from one of
    the twelve ports, which is a block device and resolves to the path of
    the device; and every port that is a block device has its resolved
    path among the devices returned. *)
Theorem discover_lists_each_disk_once (fs : filesystem) :
  NoDup (map Device.path (discover fs)) /\
  (forall d, In d (discover fs) ->
     In (Device.port d) PORTS /\
     is_block_device fs (Device.port d) = true /\
     Device.path d = resolve fs (Device.port d) /\
     Device.model d = [] /\ Device.serial d = []) /\
  (forall p, In p PORTS -> is_block_device fs p = true ->
             In (resolve fs p) (map Device.path (discover fs))).
Proof. unfold discover. apply discover_ports_spec. Qed.

Lemma In_pick_tokens (devices : list Device.t) (toks : list str) (d : Device.t) :
  In d (pick_tokens devices toks) -> In d devices.
Proof.
  induction toks as [|tok rest IH]; simpl; [intros []|].
  destruct (py_int tok) as [idx|]; [|exact IH].
  destruct ((1 <=? idx)%Z && (idx <=? Z.of_nat (length devices))%Z)%bool;
    [|exact IH].
  destruct (item devices (idx - 1)) as [d'|] eqn:E; [|exact IH].
  intros [<-|H]; [|auto]. unfold item in E. eapply nth_error_In, E.
Qed.


(** The same number twice picks the same device twice. *)
Lemma pick_devices_repeats :
  let d1 := Device.init (s2l "/dev/sda") [] in
  let d2 := Device.init (s2l "/dev/sdb") [] in
  pick_devices [d1; d2] (s2l " 2 x 0 +2 3 1_0 ") = [d2; d2].
Proof. vm_compute. reflexivity. Qed.

Lemma dict_get_sound {V} (pairs : list (str * V)) (key : str) (v : V) :
  dict_get pairs key = Some v -> In (key, v) pairs.
Proof.
  induction pairs as [|[k x] rest IH]; simpl; [discriminate|].
  destruct (dict_get rest key) as [v'|].
  - intros H. injection H as ->. right. auto.
  - destruct (str_eqb k key) eqn:E; [|discriminate].
    apply str_eqb_eq in E. intros H. injection H as ->. left. now subst.
Qed.

Lemma dict_get_none {V} (pairs : list (str * V)) (key : str) :
  dict_get pairs key = None -> ~ In key (map fst pairs).
Proof.
  induction pairs as [|[k x] rest IH]; simpl; [tauto|].
  destruct (dict_get rest key) as [v'|]; [discriminate|].
  destruct (str_eqb k key) eqn:E; [discriminate|].
  intros _ [H|H]; [|now apply IH].
  apply str_eqb_eq in H. congruence.
Qed.



Lemma discover_loop_ports (fs : filesystem) :
  forall ports seen devices,
    NoDup ports ->
    (forall d, In d devices -> ~ In (Device.port d) ports) ->
    NoDup (map Device.port devices) ->
    (forall d, In d devices ->
               Device.slot d = slot_of_port (Device.port d)) ->
    let r := discover_loop fs ports seen devices in
    NoDup (map Device.port r) /\
    (forall d, In d r -> Device.slot d = slot_of_port (Device.port d)) /\
    (forall d, In d r -> In d devices \/ In (Device.port d) ports).
Proof.
  induction ports as [|p rest IH]; intros seen devices Hnd Hdis Hnp Hsl; simpl.
  - auto.
  - inversion Hnd as [|? ? Hp Hrest]; subst.
    assert (Hdis' : forall d, In d devices -> ~ In (Device.port d) rest).
    { intros d Hd Hin. apply (Hdis d Hd). right. assumption. }
    assert (Hskip :
      NoDup (map Device.port (discover_loop fs rest seen devices)) /\
      (forall d, In d (discover_loop fs rest seen devices) ->
                 Device.slot d = slot_of_port (Device.port d)) /\
      (forall d, In d (discover_loop fs rest seen devices) ->
                 In d devices \/ p = Device.port d \/ In (Device.port d) rest)).
    { destruct (IH seen devices Hrest Hdis' Hnp Hsl) as (H1 & H2 & H3).
      split; [exact H1|]. split; [exact H2|].
      intros d Hd. destruct (H3 d Hd); auto. }
    destruct (is_block_device fs p); [|exact Hskip].
    destruct (existsb (str_eqb (resolve fs p)) seen); [exact Hskip|].
    destruct (IH (resolve fs p :: seen)
                 (devices ++ [Device.init (resolve fs p) p]) Hrest)
      as (H1 & H2 & H3).
    + intros d Hd. apply in_app_iff in Hd.
      destruct Hd as [Hd|[<-|[]]]; [auto | exact Hp].
    + rewrite map_app. simpl.
      apply NoDup_app; [assumption | repeat constructor; intros [] |].
      intros x Hx [<-|[]]. apply in_map_iff in Hx.
      destruct Hx as (d & Hpd & Hd). apply (Hdis d Hd). left. auto.
    + intros d Hd. apply in_app_iff in Hd.
      destruct Hd as [Hd|[<-|[]]]; [auto | reflexivity].
    + split; [exact H1|]. split; [exact H2|].
      intros d Hd. destruct (H3 d Hd) as [Hin|Hin]; [|auto].
      apply in_app_iff in Hin. destruct Hin as [Hin|[<-|[]]]; [auto|].
      right. left. reflexivity.
Qed.

Lemma nodupb_NoDup (l : list str) : nodupb l = true -> NoDup l.
Proof.
  induction l as [|x l IH]; simpl; intros H; constructor.
  - apply andb_true_iff in H. destruct H as [H _].
    apply negb_true_iff in H. intros Hin.
    apply existsb_str_eqb in Hin. congruence.
  - apply IH. apply andb_true_iff in H. tauto.
Qed.

Lemma NoDup_map_on {A B} (f : A -> B) (l : list A) :
  NoDup l -> (forall x y, In x l -> In y l -> f x = f y -> x = y) ->
  NoDup (map f l).
Proof.
  induction 1 as [|x l Hx Hl IH]; intros Hf; simpl; constructor.
  - intros Hin. apply in_map_iff in Hin. destruct Hin as (y & Hy & Hin).
    assert (y = x) by (apply Hf; simpl; auto). subst. contradiction.
  - apply IH. intros a b Ha Hb. apply Hf; simpl; auto.
Qed.

Lemma NoDup_map_injective_on {A B} (f : A -> B) (l : list A) :
  NoDup (map f l) ->
  forall x y, In x l -> In y l -> f x = f y -> x = y.
Proof.
  induction l as [|a l IH]; simpl; intros Hnd x y Hx Hy E; [contradiction|].
  inversion Hnd as [|? ? Ha Hl]; subst.
  destruct Hx as [<-|Hx], Hy as [<-|Hy]; auto.
  - exfalso. apply Ha. rewrite E. now apply in_map.
  - exfalso. apply Ha. rewrite <- E. now apply in_map.
Qed.

Lemma PORTS_NoDup : NoDup PORTS.
Proof. apply nodupb_NoDup. vm_compute. reflexivity. Qed.

Lemma PORTS_slots : map slot_of_port PORTS = map SlotNo SLOTS.
Proof. vm_compute. reflexivity. Qed.

Lemma SLOTS_NoDup : NoDup (map SlotNo SLOTS).
Proof.
  unfold SLOTS. simpl.
  repeat (constructor; [simpl; intuition discriminate|]). constructor.
Qed.

Lemma discover_ports_slots (fs : filesystem) (ports : list str) :
  NoDup ports ->
  NoDup (map Device.port (discover_loop fs ports [] [])) /\
  (forall d, In d (discover_loop fs ports [] []) ->
     In (Device.port d) ports /\
     Device.slot d = slot_of_port (Device.port d)).
Proof.
  intros Hnd.
  destruct (discover_loop_ports fs ports [] [] Hnd) as (H1 & H2 & H3).
  { intros d []. } { constructor. } { intros d []. }
  split; [exact H1|]. intros d Hd. split; [|auto].
  destruct (H3 d Hd) as [Hin|Hin]; [destruct Hin | exact Hin].
Qed.

(** X20. Every device [discover] returns has a numbered slot between 0
    and 11, never the unknown slot "?", and no two of them have the same
    slot. *)
Theorem discovered_slots_are_distinct (fs : filesystem) :
  (forall d, In d (discover fs) ->
     exists n, Device.slot d = SlotNo n /\ (0 <= n <= 11)%Z) /\
  NoDup (map Device.slot (discover fs)).
Proof.
  unfold discover.
  destruct (discover_ports_slots fs PORTS PORTS_NoDup) as [Hp Hs].
  generalize dependent (discover_loop fs PORTS [] []). intros r Hp Hs.
  split.
  - intros d Hd. destruct (Hs d Hd) as [Hin ->].
    assert (Hin' : In (slot_of_port (Device.port d)) (map SlotNo SLOTS)).
    { rewrite <- PORTS_slots. now apply in_map. }
    apply in_map_iff in Hin'. destruct Hin' as (n & <- & Hn).
    exists n. split; [reflexivity|].
    unfold SLOTS in Hn. simpl in Hn. intuition lia.
  - rewrite (map_ext_in Device.slot (fun d => slot_of_port (Device.port d)) r)
      by (intros d Hd; apply (Hs d Hd)).
    rewrite <- (map_map Device.port slot_of_port).
    apply NoDup_map_on; [exact Hp|].
    intros x y Hx Hy E.
    assert (Hxp : In x PORTS).
    { apply in_map_iff in Hx. destruct Hx as (d & <- & Hd). apply (Hs d Hd). }
    assert (Hyp : In y PORTS).
    { apply in_map_iff in Hy. destruct Hy as (d & <- & Hd). apply (Hs d Hd). }
    apply (NoDup_map_injective_on slot_of_port PORTS); auto.
    rewrite PORTS_slots. apply SLOTS_NoDup.
Qed.

(* ================================================================= *)
(** * Formatting *)

Lemma launch_all_spec (fw : fmt_world) (fast_mode : bool) :
  forall selected i,
    exists k,
      (k <= length selected)%nat /\
      launches_of (snd (launch_all fw fast_mode i selected))
      = map (format_cmd fw fast_mode) (firstn k selected) /\
      prepared_of (snd (launch_all fw fast_mode i selected))
      = map Device.path (firstn k selected) /\
      monitored_of (snd (launch_all fw fast_mode i selected)) = [] /\
      (forall l, fst (launch_all fw fast_mode i selected) = Ok l ->
         k = length selected /\ map fst l = selected /\
         forall j d rc, nth_error l j = Some (d, rc) ->
           popen fw (i + j) (format_cmd fw fast_mode d) = Ok rc).
Proof.
  induction selected as [|d rest IH]; intros i; cbn [launch_all].
  - exists 0%nat. cbn [fst snd firstn map length].
    split; [lia|]. split; [reflexivity|]. split; [reflexivity|].
    split; [reflexivity|].
    intros l H. injection H as <-. split; [reflexivity|].
    split; [reflexivity|]. intros j d rc Hj. destruct j; discriminate.
  - destruct (popen fw i (format_cmd fw fast_mode d)) as [rc|e] eqn:E.
    + destruct (IH (S i)) as (k & Hk & Hl & Hp & Hm & Hok).
      destruct (launch_all fw fast_mode (S i) rest) as [r evs].
      cbn [fst snd] in *. exists (S k). cbn [firstn map].
      split; [simpl; lia|]. split; [simpl; now rewrite Hl|].
      split; [simpl; now rewrite Hp|]. split; [exact Hm|].
      intros l H. destruct r as [l'|e']; [|discriminate].
      injection H as <-. destruct (Hok l' eq_refl) as (-> & Hf & Hn).
      split; [reflexivity|]. split; [simpl; now rewrite Hf|].
      intros j d' rc' Hj. destruct j as [|j].
      * injection Hj as <- <-. now rewrite Nat.add_0_r.
      * rewrite Nat.add_succ_r. apply (Hn j d' rc' Hj).
    + exists 1%nat. cbn [fst snd firstn map].
      split; [simpl; lia|]. split; [reflexivity|]. split; [reflexivity|].
      split; [reflexivity|]. intros l H. discriminate.
Qed.

Lemma check_launches_spec (fast_mode : bool) :
  forall launches,
    fst (check_launches fast_mode launches)
    = map fst (filter (fun x => is_running (snd x)) launches) /\
    launches_of (snd (check_launches fast_mode launches)) = [] /\
    prepared_of (snd (check_launches fast_mode launches)) = [] /\
    monitored_of (snd (check_launches fast_mode launches)) = [].
Proof.
  induction launches as [|[d rc] rest (H1 & H2 & H3 & H4)]; [simpl; auto|].
  cbn [check_launches].
  destruct (check_launches fast_mode rest) as [started evs].
  cbn [fst snd filter] in *.
  destruct (is_running rc); simpl; rewrite H1; auto.
Qed.

Lemma launches_of_app a b : launches_of (a ++ b) = launches_of a ++ launches_of b.
Proof. apply flat_map_app. Qed.
Lemma prepared_of_app a b : prepared_of (a ++ b) = prepared_of a ++ prepared_of b.
Proof. apply flat_map_app. Qed.
Lemma monitored_of_app a b : monitored_of (a ++ b) = monitored_of a ++ monitored_of b.
Proof. apply flat_map_app. Qed.

(** X21. [cmd_format] formats nothing without the confirmation: unless
    the answer to the confirmation prompt is "YES" once the white space
    around it is stripped (so not "yes", not "Y"), no device is prepared,
    no format is launched and the monitor is not started; the function
    returns False. *)
Theorem format_needs_yes (fw : fmt_world) (args_fast : bool)
    (mode_answer confirm_answer : str) (selected : list Device.t) :
  py_strip confirm_answer <> s2l "YES" ->
  let out := cmd_format_selected fw args_fast mode_answer confirm_answer
                                 selected in
  f_result out = Ok false /\
  prepared_of (f_events out) = [] /\
  launches_of (f_events out) = [] /\
  monitored_of (f_events out) = [].
Proof.
  intros H. unfold cmd_format_selected.
  destruct selected as [|d rest]; [simpl; auto|].
  destruct (str_eqb (py_strip confirm_answer) (s2l "YES")) eqn:E.
  - apply str_eqb_eq in E. contradiction.
  - simpl. auto.
Qed.

Lemma format_needs_yes_witness :
  let fw := {| sg_device := fun p => p; popen := fun _ _ => Ok None |} in
  let out := cmd_format_selected fw true [] (s2l "yes")
               [Device.init (s2l "/dev/sda") []] in
  f_result out = Ok false /\
  prepared_of (f_events out) = [] /\
  launches_of (f_events out) = [] /\
  monitored_of (f_events out) = [].
Proof.
  apply (format_needs_yes
           {| sg_device := fun p => p; popen := fun _ _ => Ok None |}
           true [] (s2l "yes") [Device.init (s2l "/dev/sda") []]).
  discriminate.
Defined.

(** X22. Once confirmed, [cmd_format] prepares and launches one
    [sg_format --format --size=512] per selected device, in the order of
    the selection, on the sg device of its path, with [--ffmt=1] exactly
    in fast mode (asked for by [args.fast] or by the answer "f" or
    "fast", in any case); a launch that raises stops the function after
    the launches made so far.  When no launch raises, the monitor is
    started once, with exactly the devices whose format is running or
    has ended with code 0, in order, and False is returned once it
    comes back; when no format runs, the monitor is not started and True
    is returned. *)
Theorem format_launches_in_order (fw : fmt_world) (args_fast : bool)
    (mode_answer confirm_answer : str) (selected : list Device.t) :
  py_strip confirm_answer = s2l "YES" ->
  selected <> [] ->
  let fast_mode :=
    (args_fast
     || str_eqb (py_lower (py_strip mode_answer)) (s2l "f")
     || str_eqb (py_lower (py_strip mode_answer)) (s2l "fast"))%bool in
  let out := cmd_format_selected fw args_fast mode_answer confirm_answer
                                 selected in
  exists k,
    (k <= length selected)%nat /\
    launches_of (f_events out)
    = map (format_cmd fw fast_mode) (firstn k selected) /\
    prepared_of (f_events out) = map Device.path (firstn k selected) /\
    (forall b, f_result out = Ok b ->
       k = length selected /\
       exists launches,
         map fst launches = selected /\
         (forall j d rc, nth_error launches j = Some (d, rc) ->
            popen fw j (format_cmd fw fast_mode d) = Ok rc) /\
         let started :=
           map fst (filter (fun x => is_running (snd x)) launches) in
         match started with
         | [] => b = true /\ monitored_of (f_events out) = []
         | _ => b = false /\ monitored_of (f_events out) = [started]
         end).
Proof.
  intros Hyes Hne fast_mode out. subst out. unfold cmd_format_selected.
  destruct selected as [|d0 rest0]; [contradiction|].
  set (selected := d0 :: rest0) in *.
  assert (Hfast : (if args_fast then true
                   else (str_eqb (py_lower (py_strip mode_answer)) (s2l "f")
                         || str_eqb (py_lower (py_strip mode_answer)) (s2l "fast"))%bool)
                  = fast_mode).
  { unfold fast_mode. destruct args_fast; [reflexivity|].
    simpl. reflexivity. }
  rewrite Hfast, Hyes.
  replace (str_eqb (s2l "YES") (s2l "YES")) with true by reflexivity.
  cbn [negb].
  destruct (launch_all_spec fw fast_mode selected 0)
    as (k & Hk & Hl & Hp & Hm & Hok).
  destruct (launch_all fw fast_mode 0 selected) as [[launches|e] evs];
    cbn [fst snd] in *.
  - destruct (Hok launches eq_refl) as (-> & Hf & Hn).
    destruct (check_launches_spec fast_mode launches) as (C1 & C2 & C3 & C4).
    destruct (check_launches fast_mode launches) as [started logs].
    cbn [fst snd] in *.
    exists (length selected). split; [lia|].
    assert (Hev : forall tl, launches_of tl = [] -> prepared_of tl = [] ->
              launches_of (evs ++ logs ++ tl)
              = map (format_cmd fw fast_mode) (firstn (length selected) selected) /\
              prepared_of (evs ++ logs ++ tl)
              = map Device.path (firstn (length selected) selected)).
    { intros tl T1 T2.
      rewrite !launches_of_app, !prepared_of_app, C2, C3, T1, T2, Hl, Hp.
      now rewrite !app_nil_r. }
    destruct started as [|s0 started'].
    + cbn [f_result f_events].
      destruct (Hev [] eq_refl eq_refl) as [E1 E2].
      rewrite app_nil_r in E1, E2.
      split; [exact E1|]. split; [exact E2|].
      intros b Hb. injection Hb as <-. split; [reflexivity|].
      exists launches. split; [exact Hf|]. split; [exact Hn|].
      cbv zeta. rewrite <- C1. split; [reflexivity|].
      now rewrite monitored_of_app, Hm, C4.
    + cbn [f_result f_events].
      destruct (Hev [EvMonitor (s0 :: started')] eq_refl eq_refl) as [E1 E2].
      split; [exact E1|]. split; [exact E2|].
      intros b Hb. injection Hb as <-. split; [reflexivity|].
      exists launches. split; [exact Hf|]. split; [exact Hn|].
      cbv zeta. rewrite <- C1. split; [reflexivity|].
      now rewrite !monitored_of_app, Hm, C4.
  - cbn [f_result f_events]. exists k. split; [exact Hk|].
    split; [exact Hl|]. split; [exact Hp|]. intros b Hb. discriminate.
Qed.

Lemma format_launches_in_order_witness :
  let fw := {| sg_device := fun p => s2l "/dev/sg3";
               popen := fun _ _ => Ok None |} in
  exists k,
    launches_of
      (f_events (cmd_format_selected fw false (s2l " F ") (s2l " YES")
                   [Device.init (s2l "/dev/sda") []]))
    = map (format_cmd fw true) (firstn k [Device.init (s2l "/dev/sda") []]).
Proof.
  destruct (format_launches_in_order
              {| sg_device := fun p => s2l "/dev/sg3";
                 popen := fun _ _ => Ok None |}
              false (s2l " F ") (s2l " YES")
              [Device.init (s2l "/dev/sda") []] eq_refl
              ltac:(discriminate))
    as (k & _ & H & _).
  exists k. exact H.
Defined.

(* ================================================================= *)
(** * Durations *)

Section Durations.

Local Arguments Ascii.eqb : simpl never.

Lemma string_of_uint_digits (u : uint) :
  Forall (fun c => CharClass.digit c = true)
         (s2l (NilEmpty.string_of_uint u)).
Proof.
  unfold s2l.
  induction u; simpl; constructor; solve [reflexivity | assumption].
Qed.

Lemma str_of_int_digits (n : Z) :
  Forall (fun c => CharClass.digit c = true) (str_of_int n).
Proof.
  unfold str_of_int, NilZero.string_of_uint.
  destruct (N.to_uint (Z.to_N n)) eqn:E;
    try (rewrite <- E; apply string_of_uint_digits).
  repeat constructor.
Qed.

Lemma pad2_digits (n : Z) :
  Forall (fun c => CharClass.digit c = true) (pad2 n).
Proof.
  unfold pad2. destruct (length (str_of_int n) <? 2)%nat.
  - constructor; [reflexivity | apply str_of_int_digits].
  - apply str_of_int_digits.
Qed.

Lemma s2l_inj (a b : string) : s2l a = s2l b -> a = b.
Proof.
  unfold s2l. intros H.
  rewrite <- (string_of_list_ascii_of_string a),
          <- (string_of_list_ascii_of_string b).
  now rewrite H.
Qed.

Lemma str_of_int_inj (a b : Z) :
  (0 <= a)%Z -> (0 <= b)%Z -> str_of_int a = str_of_int b -> a = b.
Proof.
  intros Ha Hb H. unfold str_of_int in H. apply s2l_inj in H.
  assert (Hn : forall n, N.to_uint n <> Nil).
  { intros n. destruct n as [|p]; [discriminate|].
    simpl. intros E.
    pose proof (DecimalPos.Unsigned.to_uint_nonnil p). contradiction. }
  assert (E : Some (N.to_uint (Z.to_N a)) = Some (N.to_uint (Z.to_N b))).
  { rewrite <- (NilZero.usu _ (Hn (Z.to_N a))),
            <- (NilZero.usu _ (Hn (Z.to_N b))).
    now rewrite H. }
  injection E as E. apply DecimalN.Unsigned.to_uint_inj in E. lia.
Qed.

(** A run of digits ends at the first character that is not one. *)
Lemma digits_then (a a' : str) (c c' : ascii) (r r' : str) :
  Forall (fun x => CharClass.digit x = true) a ->
  Forall (fun x => CharClass.digit x = true) a' ->
  CharClass.digit c = false -> CharClass.digit c' = false ->
  a ++ c :: r = a' ++ c' :: r' ->
  a = a' /\ c = c' /\ r = r'.
Proof.
  intros Ha. revert a'.
  induction Ha as [|x a Hx Ha IH]; intros a' Ha' Hc Hc' E.
  - destruct Ha' as [|y a' Hy Ha'].
    + simpl in E. injection E as -> ->. auto.
    + simpl in E. injection E as -> _. congruence.
  - destruct Ha' as [|y a' Hy Ha'].
    + simpl in E. injection E as -> _. congruence.
    + simpl in E. injection E as -> E.
      destruct (IH a' Ha' Hc Hc' E) as (-> & -> & ->). auto.
Qed.

Lemma upto60_In (n : Z) : (0 <= n < 60)%Z -> In n upto60.
Proof.
  intros H. unfold upto60. apply in_map_iff. exists (Z.to_nat n).
  split; [lia|]. apply in_seq. lia.
Qed.

Lemma pad2_inj (a b : Z) :
  (0 <= a < 60)%Z -> (0 <= b < 60)%Z -> pad2 a = pad2 b -> a = b.
Proof.
  intros Ha Hb H.
  assert (Hall : forallb (fun x => forallb (fun y =>
                   implb (str_eqb (pad2 x) (pad2 y)) (Z.eqb x y)) upto60)
                   upto60 = true) by (vm_compute; reflexivity).
  rewrite forallb_forall in Hall.
  pose proof (Hall a (upto60_In a Ha)) as Hall'.
  rewrite forallb_forall in Hall'.
  pose proof (Hall' b (upto60_In b Hb)) as Hab.
  apply str_eqb_eq in H. rewrite H in Hab. simpl in Hab.
  now apply Z.eqb_eq.
Qed.

Lemma fmt_duration_fields (q : Q) :
  exists h m s,
    (0 <= h)%Z /\ (0 <= m < 60)%Z /\ (0 <= s < 60)%Z /\
    Z.max 0 (int_of_float q) = (3600 * h + 60 * m + s)%Z /\
    fmt_duration q =
      if negb (Z.eqb h 0) then
        str_of_int h ++ "h"%char :: " "%char :: pad2 m
        ++ "m"%char :: " "%char :: pad2 s ++ ["s"%char]
      else if negb (Z.eqb m 0) then
        str_of_int m ++ "m"%char :: " "%char :: pad2 s ++ ["s"%char]
      else str_of_int s ++ ["s"%char].
Proof.
  unfold fmt_duration. set (n := Z.max 0 (int_of_float q)).
  assert (Hn : (0 <= n)%Z) by (unfold n; lia).
  exists (n / 3600)%Z, ((n mod 3600) / 60)%Z, ((n mod 3600) mod 60)%Z.
  pose proof (Z.div_mod n 3600 ltac:(lia)) as D1.
  pose proof (Z.mod_pos_bound n 3600 ltac:(lia)) as B1.
  pose proof (Z.div_mod (n mod 3600) 60 ltac:(lia)) as D2.
  pose proof (Z.mod_pos_bound (n mod 3600) 60 ltac:(lia)) as B2.
  assert (0 <= n / 3600)%Z by (apply Z.div_pos; lia).
  assert (0 <= (n mod 3600) / 60 < 60)%Z.
  { split; [apply Z.div_pos; lia | apply Z.div_lt_upper_bound; lia]. }
  repeat (split; [lia|]). reflexivity.
Qed.

(** X23. The text of a duration identifies it to the second: two
    durations are displayed alike exactly when they have the same whole
    number of seconds (a negative duration counting as zero); the
    fraction of a second is never shown. *)
Theorem fmt_duration_tells_the_seconds (a b : Q) :
  fmt_duration a = fmt_duration b
  <-> Z.max 0 (int_of_float a) = Z.max 0 (int_of_float b).
Proof.
  split; [|intros H; unfold fmt_duration; now rewrite H].
  destruct (fmt_duration_fields a) as (h & m & s & Hh & Hm & Hs & -> & ->).
  destruct (fmt_duration_fields b) as (h' & m' & s' & Hh' & Hm' & Hs' & -> & ->).
  pose proof (str_of_int_digits h) as Dh.
  pose proof (str_of_int_digits h') as Dh'.
  pose proof (str_of_int_digits m) as Dm.
  pose proof (str_of_int_digits m') as Dm'.
  pose proof (str_of_int_digits s) as Ds.
  pose proof (str_of_int_digits s') as Ds'.
  pose proof (pad2_digits m) as Pm.
  pose proof (pad2_digits m') as Pm'.
  pose proof (pad2_digits s) as Ps.
  pose proof (pad2_digits s') as Ps'.
  assert (Nh : CharClass.digit "h" = false) by reflexivity.
  assert (Nm : CharClass.digit "m" = false) by reflexivity.
  assert (Ns : CharClass.digit "s" = false) by reflexivity.
  destruct (Z.eqb_spec h 0) as [->|H0], (Z.eqb_spec h' 0) as [->|H0'];
    cbn [negb].
  - destruct (Z.eqb_spec m 0) as [->|M0], (Z.eqb_spec m' 0) as [->|M0'];
      cbn [negb]; intros E.
    + apply (digits_then _ _ _ _ _ _ Ds Ds' Ns Ns) in E.
      destruct E as (E & _). apply str_of_int_inj in E; lia.
    + apply (digits_then _ _ _ _ _ _ Ds Dm' Ns Nm) in E.
      destruct E as (_ & E & _). discriminate.
    + apply (digits_then _ _ _ _ _ _ Dm Ds' Nm Ns) in E.
      destruct E as (_ & E & _). discriminate.
    + apply (digits_then _ _ _ _ _ _ Dm Dm' Nm Nm) in E.
      destruct E as (E1 & _ & E2). injection E2 as E2.
      apply (digits_then _ _ _ _ _ _ Ps Ps' Ns Ns) in E2.
      destruct E2 as (E2 & _).
      apply str_of_int_inj in E1; [|lia|lia].
      apply pad2_inj in E2; [|lia|lia]. lia.
  - destruct (Z.eqb_spec m 0) as [->|M0]; cbn [negb]; intros E.
    + apply (digits_then _ _ _ _ _ _ Ds Dh' Ns Nh) in E.
      destruct E as (_ & E & _). discriminate.
    + apply (digits_then _ _ _ _ _ _ Dm Dh' Nm Nh) in E.
      destruct E as (_ & E & _). discriminate.
  - destruct (Z.eqb_spec m' 0) as [->|M0']; cbn [negb]; intros E.
    + apply (digits_then _ _ _ _ _ _ Dh Ds' Nh Ns) in E.
      destruct E as (_ & E & _). discriminate.
    + apply (digits_then _ _ _ _ _ _ Dh Dm' Nh Nm) in E.
      destruct E as (_ & E & _). discriminate.
  - intros E.
    apply (digits_then _ _ _ _ _ _ Dh Dh' Nh Nh) in E.
    destruct E as (E1 & _ & E2). injection E2 as E2.
    apply (digits_then _ _ _ _ _ _ Pm Pm' Nm Nm) in E2.
    destruct E2 as (E2 & _ & E3). injection E3 as E3.
    apply (digits_then _ _ _ _ _ _ Ps Ps' Ns Ns) in E3.
    destruct E3 as (E3 & _).
    apply str_of_int_inj in E1; [|lia|lia].
    apply pad2_inj in E2; [|lia|lia].
    apply pad2_inj in E3; [|lia|lia]. lia.
Qed.

End Durations.
